(** * Verification of src/utils.js (content-scope-scripts)

    A shallow embedding of the utility module: the linear feedback shift
    register [nextRandom], the key walker [iterateDataKey], the exemption
    lists ([initStringExemptionLists], [shouldExemptUrl],
    [shouldExemptMethod]), the property override helper and the
    [DDGProxy] apply handler, followed by the properties proved about
    them. *)

From Stdlib Require Import ZArith Ascii.
From stdpp Require Import gmap strings list vector.

Local Open Scope Z_scope.

(** ** JavaScript numbers and the 32-bit integer operators

    The numbers that reach this module are integer valued (character
    codes and the results of bitwise operators) or [NaN]
    ([''.charCodeAt(0)]).  The bitwise operators convert their operands
    with ToInt32 and take the shift count modulo 32.

    [Num z] stands for the double whose value is the integer [z]: it is
    a number of the program only where [z] is exactly representable,
    which every integer up to 2^53 in absolute value is. *)

Inductive number : Type :=
| NaN
| Num (z : Z).

(** The integers that are values of doubles: 53 significant bits, so an
    integer with highest bit [n > 52] is a multiple of [2 ^ (n - 52)]. *)
Definition exactly_representable (z : Z) : bool :=
  (Z.log2 (Z.abs z) <=? 1023)
  && (Z.abs z mod 2 ^ Z.max 0 (Z.log2 (Z.abs z) - 52) =? 0).

(** Reduction of an integer to the signed 32-bit range. *)
Definition wrap32 (z : Z) : Z := (z + 2 ^ 31) mod 2 ^ 32 - 2 ^ 31.

Definition ToInt32 (n : number) : Z :=
  match n with
  | NaN => 0
  | Num z => wrap32 z
  end.

(** [a >> k] *)
Definition js_sar (a k : Z) : Z := Z.shiftr (wrap32 a) (k mod 32).
(** [a << k] *)
Definition js_shl (a k : Z) : Z := wrap32 (Z.shiftl (wrap32 a) (k mod 32)).
(** [a | b], [a & b], [a ^ b], [~a] *)
Definition js_or (a b : Z) : Z := Z.lor (wrap32 a) (wrap32 b).
Definition js_and (a b : Z) : Z := Z.land (wrap32 a) (wrap32 b).
Definition js_xor (a b : Z) : Z := Z.lxor (wrap32 a) (wrap32 b).
Definition js_not (a : Z) : Z := Z.lnot (wrap32 a).

(** ** nextRandom (utils.js, line 26)

    [Math.abs((v >> 1) | (((v << 62) ^ (v << 61)) & (~(~0 << 63) << 62)))] *)
Definition nextRandom (v : number) : number :=
  let x := ToInt32 v in
  Num (Z.abs (js_or (js_sar x 1)
                    (js_and (js_xor (js_shl x 62) (js_shl x 61))
                            (js_shl (js_not (js_shl (js_not 0) 63)) 62)))).

(** The same formula read in 63-bit-wide unsigned arithmetic, as the
    design document words it: shifts discard the bits at position 63 and
    above, and complement is taken within 63 bits. *)
Definition shl63 (a k : Z) : Z := Z.shiftl a k mod 2 ^ 63.
Definition not63 (a : Z) : Z := 2 ^ 63 - 1 - a mod 2 ^ 63.
Definition nextRandom_wide63 (mask v : Z) : Z :=
  Z.abs (Z.lor (Z.shiftr v 1)
               (Z.land (Z.lxor (shl63 v 62) (shl63 v 61)) mask)).
(** The mask expression of the source in that arithmetic: bit 62. *)
Definition mask63 : Z := shl63 (not63 (shl63 (not63 0) 63)) 62.

(** What the operators of [nextRandom] amount to on 32-bit operands:
    effective shift counts 30 and 29, and a mask of bits 30 and 31. *)
Definition mask32 : Z := - 2 ^ 30.
Definition nextRandom_int32 (x : Z) : Z :=
  Z.abs (Z.lor (Z.shiftr x 1)
               (Z.land (Z.lxor (wrap32 (x * 2 ^ 30)) (wrap32 (x * 2 ^ 29)))
                       mask32)).

(** ** iterateDataKey (utils.js, line 99)

    A key is a JavaScript string, given by its UTF-16 code units.  The
    callback may have effects of its own: it is a function on a state of
    the caller's choosing.  Only whether its result is [null] matters to
    the loop. *)

Definition charCodeAt (key : list Z) (i : nat) : number :=
  match key !! i with
  | Some c => Num c
  | None => NaN
  end.

Inductive cb_result : Type :=
| ResNull
| ResOther.

(** One invocation of the callback: its two arguments and its result. *)
Record invocation : Type := Invoked {
  inv_item : number;
  inv_byte : Z;
  inv_result : cb_result
}.

(** How a loop was left: it ran out ([Completed], with the current
    [item]) or hit the [return] statement. *)
Inductive flow : Type :=
| Completed (item : number)
| Returned.

Section KeyIterator.
Context {St : Type}.
Variable callback : number -> Z -> St -> cb_result * St.

(** [for (let j = 8; j >= 0; j--)]: [n] is the number of values of [j]
    still to visit, [j + 1]. *)
Fixpoint bit_loop (n : nat) (item : number) (byte : Z) (s : St)
  : flow * St * list invocation :=
  match n with
  | O => (Completed item, s, [])
  | S n' =>
      let '(res, s1) := callback item byte s in
      match res with
      | ResNull => (Returned, s1, [Invoked item byte res])
      | ResOther =>
          let '(f, s2, t) := bit_loop n' (nextRandom item) (js_sar byte 1) s1 in
          (f, s2, Invoked item byte res :: t)
      end
  end.

(** [for (const i in key)]: the indices of the key in increasing
    order; [byte = key.charCodeAt(i)]. *)
Fixpoint char_loop (chars : list Z) (item : number) (s : St)
  : St * list invocation :=
  match chars with
  | [] => (s, [])
  | c :: rest =>
      match bit_loop 9 item c s with
      | (Returned, s1, t) => (s1, t)
      | (Completed item1, s1, t) =>
          let '(s2, t') := char_loop rest item1 s1 in
          (s2, t ++ t')
      end
  end.

(** Final state of the callback and the invocations made, in order. *)
Definition iterateDataKey (key : list Z) (s : St) : St * list invocation :=
  char_loop key (charCodeAt key 0) s.
End KeyIterator.

(** The values of [byte] in [n] rounds of the inner loop. *)
Fixpoint shifted (n : nat) (byte : Z) : list Z :=
  match n with
  | O => []
  | S n' => byte :: shifted n' (js_sar byte 1)
  end.

(** A run of invocations none of which returned [null], and a run that
    ends with the first invocation that did. *)
Definition quiet (t : list invocation) : Prop :=
  Forall (λ e, inv_result e = ResOther) t.
Definition stopped (t : list invocation) : Prop :=
  ∃ t0 e, t = t0 ++ [e] ∧ quiet t0 ∧ inv_result e = ResNull.

(** Code units of a string literal (one per character). *)
Definition code_units (s : string) : list Z :=
  (λ c, Z.of_nat (Ascii.nat_of_ascii c)) <$> String.list_ascii_of_string s.

(** A callback that never stops, and one that counts its invocations and
    returns [null] on the [k]-th. *)
Definition never_stop (item : number) (byte : Z) (s : unit) : cb_result * unit :=
  (ResOther, s).
Definition stop_at (k : nat) (item : number) (byte : Z) (calls : nat)
  : cb_result * nat :=
  (if decide (S calls = k) then ResNull else ResOther, S calls).

(** ** Exceptions, results and values *)

Inductive exception : Type :=
| TypeError
| SyntaxError
| HostError (tag : string).

(** The result of a call: a value or a raised exception. *)
Inductive outcome (A : Type) : Type :=
| Returns (a : A)
| Throws (e : exception).
Arguments Returns {A} a.
Arguments Throws {A} e.

(** The completion of a block of statements: it ran to its end, left the
    function through [return], or raised. *)
Inductive completion (A : Type) : Type :=
| Normal
| Return (a : A)
| Throw (e : exception).
Arguments Normal {A}.
Arguments Return {A} a.
Arguments Throw {A} e.

(** The JavaScript values that are passed through this module
    (primitives only). *)
Inductive value : Type :=
| VUndefined
| VNull
| VBool (b : bool)
| VNumber (n : number)
| VString (s : string)
| VBigInt (z : Z).

Global Instance number_eq_dec : EqDecision number.
Proof. solve_decision. Defined.
Global Instance value_eq_dec : EqDecision value.
Proof. solve_decision. Defined.

(** ** The regular expression engine of the host

    [RegExp_new s] is [new RegExp(s)], [None] when the source does not
    compile (a SyntaxError); [RegExp_test r u] is [r.test(u)].  The
    expressions built here carry no flags, so [test] keeps no position
    between calls. *)
Class RegExpEngine : Type := {
  RegExp : Type;
  RegExp_new : string -> option RegExp;
  RegExp_test : RegExp -> string -> bool
}.

(** ** The module state: [exemptionLists] and [debug]

    Feature names are property names of a plain object; names that the
    object inherits from [Object.prototype] are not modelled. *)
Record module_state `{RegExpEngine} : Type := ModuleState {
  exemptionLists : gmap string (list RegExp);
  debug : bool
}.

(** The state when the module is loaded: [exemptionLists = {}],
    [debug = false]. *)
Definition initial_state `{RegExpEngine} : module_state :=
  {| exemptionLists := ∅; debug := false |}.

(** Statements that read and write the module state and may raise; the
    state written before an exception is kept. *)
Definition M `{RegExpEngine} (A : Type) : Type :=
  module_state -> outcome A * module_state.

Definition ret `{RegExpEngine} {A} (a : A) : M A := λ σ, (Returns a, σ).
Definition throw `{RegExpEngine} {A} (e : exception) : M A := λ σ, (Throws e, σ).
Definition bind `{RegExpEngine} {A B} (m : M A) (k : A -> M B) : M B :=
  λ σ, match m σ with
       | (Returns a, σ1) => k a σ1
       | (Throws e, σ1) => (Throws e, σ1)
       end.

Notation "'let!' x ':=' m 'in' k" := (bind m (λ x, k))
  (at level 10, x name, m at level 100, k at level 200).
Notation "m '>>' k" := (bind m (λ _, k))
  (at level 100, k at level 200, right associativity).

(** [for (const x of xs) body] *)
Fixpoint for_of `{RegExpEngine} {A} (xs : list A) (body : A -> M unit) : M unit :=
  match xs with
  | [] => ret tt
  | x :: rest => body x >> for_of rest body
  end.

Section ExemptionLists.
Context `{RegExpEngine}.

(** ** shouldExemptUrl (utils.js, line 35) *)

(** The body of the [for ... of] loop: the first pattern that matches
    the URL makes the function return [true]. *)
Fixpoint any_test (regexes : list RegExp) (url : string) : bool :=
  match regexes with
  | [] => false
  | regex :: rest => if RegExp_test regex url then true else any_test rest url
  end.

(** [exemptionLists[type]] is [undefined] for a name that was never
    assigned, and iterating [undefined] raises a TypeError. *)
Definition shouldExemptUrl (σ : module_state) (type url : string) : outcome bool :=
  match exemptionLists σ !! type with
  | None => Throws TypeError
  | Some regexes => Returns (any_test regexes url)
  end.

(** ** initStringExemptionLists (utils.js, line 49) *)

(** The argument: [debug] by its truthiness, and
    [stringExemptionLists], when present, as the features of the object
    in enumeration order with their pattern sources. *)
Record init_args : Type := InitArgs {
  arg_debug : bool;
  arg_stringExemptionLists : option (list (string * list string))
}.

Definition set_debug (b : bool) : M unit :=
  λ σ, (Returns tt, {| exemptionLists := exemptionLists σ; debug := b |}).

(** [exemptionLists[type] = regexes] *)
Definition with_list (σ : module_state) (type : string) (regexes : list RegExp)
  : module_state :=
  {| exemptionLists := <[type := regexes]> (exemptionLists σ);
     debug := debug σ |}.
Definition assign_list (type : string) (regexes : list RegExp) : M unit :=
  λ σ, (Returns tt, with_list σ type regexes).

(** [exemptionLists[type].push(regex)] *)
Definition push_regex (type : string) (regex : RegExp) : M unit :=
  λ σ, match exemptionLists σ !! type with
       | None => (Throws TypeError, σ)
       | Some regexes => assign_list type (regexes ++ [regex]) σ
       end.

(** [new RegExp(source)] *)
Definition new_RegExp (source : string) : M RegExp :=
  match RegExp_new source with
  | Some regex => ret regex
  | None => throw SyntaxError
  end.

(** The expressions of a list of sources, when all of them compile,
    and the expressions of the sources before the first one that does
    not. *)
Definition compile_all (sources : list string) : option (list RegExp) :=
  mapM RegExp_new sources.
Fixpoint compiled_prefix (sources : list string) : list RegExp :=
  match sources with
  | [] => []
  | source :: rest =>
      match RegExp_new source with
      | Some regex => regex :: compiled_prefix rest
      | None => []
      end
  end.

(** How the inner loop over a list of sources ends. *)
Definition compile_result (sources : list string) : outcome unit :=
  match compile_all sources with
  | Some _ => Returns tt
  | None => Throws SyntaxError
  end.

(** The body of the inner loop:
    [exemptionLists[type].push(new RegExp(stringExemption))] *)
Definition compile_and_push (type stringExemption : string) : M unit :=
  let! regex := new_RegExp stringExemption in
  push_regex type regex.

Definition init_feature (entry : string * list string) : M unit :=
  let '(type, sources) := entry in
  assign_list type [] >>
  for_of sources (compile_and_push type).

Definition initStringExemptionLists (args : init_args) : M unit :=
  set_debug (arg_debug args) >>
  match arg_stringExemptionLists args with
  | None => ret tt
  | Some stringExemptionLists => for_of stringExemptionLists init_feature
  end.
End ExemptionLists.

(** ** The stack line pattern of shouldExemptMethod (utils.js, line 73)

    [/(\()?(http[^)]+):[0-9]+:[0-9]+(\))?/], matched on the characters of
    a line; the functions return the text of the second group. *)

Local Open Scope char_scope.

Definition is_digit (c : ascii) : bool :=
  (48 <=? Ascii.nat_of_ascii c)%nat && (Ascii.nat_of_ascii c <=? 57)%nat.

(** [[0-9]+]: the text after the longest run of digits, when the run is
    not empty. *)
Fixpoint skip_digits (l : list ascii) : list ascii :=
  match l with
  | c :: rest => if is_digit c then skip_digits rest else l
  | [] => []
  end.
Definition digits1 (l : list ascii) : option (list ascii) :=
  match l with
  | c :: rest => if is_digit c then Some (skip_digits rest) else None
  | [] => None
  end.

(** [:[0-9]+:[0-9]+] at the head of the text (the optional closing
    parenthesis that follows always matches). *)
Definition location_suffix (l : list ascii) : bool :=
  match l with
  | ":" :: l1 =>
      match digits1 l1 with
      | Some (":" :: l2) => bool_decide (is_Some (digits1 l2))
      | _ => false
      end
  | _ => false
  end.

(** [[^)]+] followed by the location suffix: the greedy quantifier keeps
    the longest run of characters after which the suffix matches. *)
Fixpoint path_rest (l : list ascii) : option (list ascii) :=
  match l with
  | [] => None
  | c :: rest =>
      if decide (c = ")") then None
      else match path_rest rest with
           | Some more => Some (c :: more)
           | None => if location_suffix rest then Some [c] else None
           end
  end.

(** A match that starts at the head of the text. *)
Definition match_here (l : list ascii) : option (list ascii) :=
  let l1 := match l with
            | "(" :: rest => rest
            | _ => l
            end in
  match l1 with
  | "h" :: "t" :: "t" :: "p" :: l2 =>
      (λ more, "h" :: "t" :: "t" :: "p" :: more) <$> path_rest l2
  | _ => None
  end.

(** The leftmost match. *)
Fixpoint match_from (l : list ascii) : option (list ascii) :=
  match match_here l with
  | Some path => Some path
  | None =>
      match l with
      | [] => None
      | _ :: rest => match_from rest
      end
  end.

(** [line.match(lineTest)]: [None] for [null], else [res[2]]. *)
Definition lineTest_match (line : string) : option string :=
  String.string_of_list_ascii <$> match_from (String.list_ascii_of_string line).

(** ** camelcase (utils.js, line 186)

    [dashCaseText.replace(/-(.)/g, (match, letter) => letter.toUpperCase())]
    on ASCII text: the dot matches every character but a line
    terminator. *)
Definition is_line_terminator (c : ascii) : bool :=
  bool_decide (c = "010" \/ c = "013").

(** [letter.toUpperCase()] on a character below 128.  On other
    characters the host function can give another length; they are
    outside the model. *)
Definition toUpperCase (c : ascii) : ascii :=
  let n := Ascii.nat_of_ascii c in
  if ((97 <=? n) && (n <=? 122))%nat then Ascii.ascii_of_nat (n - 32) else c.

Fixpoint camelcase_chars (l : list ascii) : list ascii :=
  match l with
  | [] => []
  | x :: tl =>
      if decide (x = "-") then
        match tl with
        | letter :: rest =>
            if is_line_terminator letter then x :: camelcase_chars tl
            else toUpperCase letter :: camelcase_chars rest
        | [] => [x]
        end
      else x :: camelcase_chars tl
  end.

Definition camelcase (dashCaseText : string) : string :=
  String.string_of_list_ascii (camelcase_chars (String.list_ascii_of_string dashCaseText)).

Local Close Scope char_scope.

(** ** shouldExemptMethod (utils.js, line 64) *)

(** What [new Error().stack?.split('\n') || []] evaluates to is decided
    by the host.  On an untouched host it is a list of text lines, or the
    empty list when [stack] is undefined; where the page or the host
    formats stacks itself, reading or splitting the stack can raise, and
    an element of the result need not be a string, so that [line.match]
    raises. *)
Inductive stack_line : Type :=
| TextLine (line : string)
| BadLine (e : exception).

Inductive stack_capture : Type :=
| StackThrows (e : exception)
| StackUndefined
| StackLines (lines : list stack_line).

Section ShouldExemptMethod.
Context `{RegExpEngine}.

(** The [for (const line of errorLines)] loop with the set
    [errorFiles] of the paths already checked. *)
Fixpoint scan_lines (σ : module_state) (type : string)
    (errorLines : list stack_line) (errorFiles : gset string) : completion bool :=
  match errorLines with
  | [] => Normal
  | BadLine e :: _ => Throw e
  | TextLine line :: rest =>
      match lineTest_match line with
      | None => scan_lines σ type rest errorFiles
      | Some path =>
          if decide (path ∈ errorFiles) then scan_lines σ type rest errorFiles
          else
            match shouldExemptUrl σ type path with
            | Throws e => Throw e
            | Returns true => Return true
            | Returns false => scan_lines σ type rest ({[path]} ∪ errorFiles)
            end
      end
  end.

(** The body of the [try] block. *)
Definition stack_check (σ : module_state) (stack : stack_capture) (type : string)
  : completion bool :=
  match stack with
  | StackThrows e => Throw e
  | StackUndefined => scan_lines σ type [] ∅
  | StackLines errorLines => scan_lines σ type errorLines ∅
  end.

(** [!(type in exemptionLists) || exemptionLists[type].length === 0] *)
Definition no_checks (σ : module_state) (type : string) : bool :=
  match exemptionLists σ !! type with
  | None => true
  | Some regexes => bool_decide (length regexes = 0%nat)
  end.

Definition shouldExemptMethod (σ : module_state) (stack : stack_capture)
    (type : string) : outcome bool :=
  if no_checks σ type then Returns false
  else
    match stack_check σ stack type with
    | Return b => Returns b
    | Normal => Returns false
    | Throw _ => Returns false
    end.
End ShouldExemptMethod.

(** ** DDGProxy (utils.js, line 228) *)

(** The record handed to [postDebugMessage].  The JSON text of the call
    arguments is represented by the values it serialises. *)
Record debug_message : Type := DebugMessage {
  msg_action : string;
  msg_kind : string;
  msg_documentUrl : string;
  msg_stack : string;
  msg_args : list value
}.

(** [JSON.stringify(args[2])]: a BigInt among the arguments raises a
    TypeError. *)
Definition is_BigInt (v : value) : bool :=
  match v with
  | VBigInt _ => true
  | _ => false
  end.
Definition JSON_stringify (argumentsList : list value) : outcome (list value) :=
  if existsb is_BigInt argumentsList then Throws TypeError
  else Returns argumentsList.

(** What the host supplies at one invocation of the handler: the stack
    seen inside [shouldExemptMethod], the value of
    [new Error().stack || ''] in the debug record, and
    [document.location.href]. *)
Record call_context : Type := CallContext {
  ctx_stack : stack_capture;
  ctx_debug_stack : outcome string;
  ctx_documentUrl : string
}.

(** The calls that the handler itself makes. *)
Inductive event : Type :=
| NativeCalled (thisArg : value) (argumentsList : list value)
| SubstituteCalled (thisArg : value) (argumentsList : list value)
| DebugPosted (feature : string) (message : debug_message).

(** The calls to the native callable and to the substitute. *)
Definition is_forward (ev : event) : bool :=
  match ev with
  | DebugPosted _ _ => false
  | _ => true
  end.
Definition forwarded (log : list event) : list event :=
  List.filter is_forward log.

Section Proxy.
Context `{RegExpEngine}.
(** The page and its objects, on which callables act. *)
Context {World : Type}.

Definition callable : Type := value -> list value -> World -> outcome value * World.

(** [globalObj.postMessage({ action: feature, message })] *)
Variable postMessage : string -> debug_message -> World -> outcome unit * World.

Record DDGProxy : Type := MkDDGProxy {
  property : string;
  featureName : string;
  camelFeatureName : string;
  (** [objectScope[property]], the target of the proxy *)
  _native : callable;
  (** [proxyObject.apply] *)
  proxyObject_apply : callable
}.

(** The constructor. *)
Definition new_DDGProxy (featureName : string) (native : callable)
    (property : string) (proxyObject_apply : callable) : DDGProxy :=
  {| property := property;
     featureName := featureName;
     camelFeatureName := camelcase featureName;
     _native := native;
     proxyObject_apply := proxyObject_apply |}.

(** The [if (debug) { postDebugMessage(...) }] statement: the fields of
    the record are evaluated in order, then the message is posted. *)
Definition post_debug (this : DDGProxy) (isExempt : bool) (ctx : call_context)
    (argumentsList : list value) (w : World) : outcome unit * World * list event :=
  match ctx_debug_stack ctx with
  | Throws e => (Throws e, w, [])
  | Returns stack =>
      match JSON_stringify argumentsList with
      | Throws e => (Throws e, w, [])
      | Returns json =>
          let message :=
            {| msg_action := if isExempt then "ignore" else "restrict";
               msg_kind := property this;
               msg_documentUrl := ctx_documentUrl ctx;
               msg_stack := stack;
               msg_args := json |} in
          let '(r, w1) := postMessage (camelFeatureName this) message w in
          (r, w1, [DebugPosted (camelFeatureName this) message])
      end
  end.

Definition debug_statement (this : DDGProxy) (σ : module_state) (isExempt : bool)
    (ctx : call_context) (argumentsList : list value) (w : World)
  : outcome unit * World * list event :=
  if debug σ then post_debug this isExempt ctx argumentsList w
  else (Returns tt, w, []).

(** [outputHandler], the [apply] trap: its result, the world after it
    and the calls it made, in order.  [DDGReflect.apply(...args)] calls
    the target with [thisArg] and the argument list. *)
Definition outputHandler (this : DDGProxy) (σ : module_state) (ctx : call_context)
    (thisArg : value) (argumentsList : list value) (w : World)
  : outcome value * World * list event :=
  match shouldExemptMethod σ (ctx_stack ctx) (camelFeatureName this) with
  | Throws e => (Throws e, w, [])
  | Returns isExempt =>
      let '(posted, w1, log) :=
        debug_statement this σ isExempt ctx argumentsList w in
      match posted with
      | Throws e => (Throws e, w1, log)
      | Returns _ =>
          if isExempt then
            let '(r, w2) := _native this thisArg argumentsList w1 in
            (r, w2, log ++ [NativeCalled thisArg argumentsList])
          else
            let '(r, w2) := proxyObject_apply this thisArg argumentsList w1 in
            (r, w2, log ++ [SubstituteCalled thisArg argumentsList])
      end
  end.
End Proxy.

(** ** overrideProperty and defineProperty (utils.js, lines 132 and 159) *)

(** A property holds a value or a getter, here given by the value the
    getter returns. *)
Inductive property_slot : Type :=
| DataProperty (v : value) (configurable : bool)
| AccessorProperty (getter_returns : value) (configurable : bool).

Definition slot_configurable (p : property_slot) : bool :=
  match p with
  | DataProperty _ c => c
  | AccessorProperty _ c => c
  end.

Record js_object : Type := JsObject {
  properties : gmap string property_slot;
  extensible : bool
}.

(** Reading [object[name]]. *)
Definition get_property (o : js_object) (name : string) : value :=
  match properties o !! name with
  | Some (DataProperty v _) => v
  | Some (AccessorProperty v _) => v
  | None => VUndefined
  end.

(** [Object.defineProperty(object, name, { get })] with a fresh getter:
    a new property is created non-configurable on an extensible object, a
    configurable property is redefined, anything else is a TypeError. *)
Definition Object_defineProperty (o : js_object) (name : string)
    (getter_returns : value) : outcome js_object :=
  match properties o !! name with
  | None =>
      if extensible o then
        Returns {| properties := <[name := AccessorProperty getter_returns false]> (properties o);
                   extensible := extensible o |}
      else Throws TypeError
  | Some p =>
      if slot_configurable p then
        Returns {| properties := <[name := AccessorProperty getter_returns true]> (properties o);
                   extensible := extensible o |}
      else Throws TypeError
  end.

(** Whether the definition of a getter on [name] is accepted. *)
Definition can_define (o : js_object) (name : string) : bool :=
  match properties o !! name with
  | None => extensible o
  | Some p => slot_configurable p
  end.

(** The platform: whether [mozProxies] is set, and, where it is, the
    definition of a property through [wrappedJSObject]. *)
Class Platform : Type := {
  hasMozProxies : bool;
  wrapped_defineProperty : js_object -> string -> value -> outcome js_object
}.

(** The platform of the unit tests, which behaves like Chrome. *)
Definition chrome_platform : Platform :=
  {| hasMozProxies := false;
     wrapped_defineProperty := λ _ _ _, Throws TypeError |}.

Record override_prop : Type := OverrideProp {
  object : js_object;
  origValue : value;
  targetValue : value
}.

Section OverrideProperty.
Context `{Platform}.

Definition defineProperty (o : js_object) (propertyName : string)
    (getter_returns : value) : outcome js_object :=
  if hasMozProxies then wrapped_defineProperty o propertyName getter_returns
  else Object_defineProperty o propertyName getter_returns.

(** The returned value and the object afterwards. *)
Definition overrideProperty (name : string) (prop : override_prop) : value * js_object :=
  if negb (bool_decide (origValue prop = VUndefined)) then
    match defineProperty (object prop) name (targetValue prop) with
    | Returns o => (origValue prop, o)
    | Throws _ => (origValue prop, object prop)
    end
  else (origValue prop, object prop).
End OverrideProperty.

(** ** getDataKeySync (utils.js, line 16) *)

(** Modelled from the spec: the sjcl library ([lib/sjcl.js]) is not among
    the sources.  [utf8String_toBits] encodes a string as UTF-8 in 32-bit
    words; [hmac_sha256 key data] is the HMAC of the numeric input under
    the key, with a 256-bit hash: eight 32-bit words.  A fresh HMAC
    object is built at every call, so the result depends on the key and
    the input only. *)
Class KeyedHash : Type := {
  utf8String_toBits : string -> list Z;
  hmac_sha256 : list Z -> number -> vec Z 8
}.

(** Modelled from the spec: [sjcl.codec.hex.fromBits] writes each 32-bit
    word as eight lowercase hexadecimal digits, most significant
    first. *)
Definition hex_digit (d : Z) : ascii :=
  default "0"%char (String.list_ascii_of_string "0123456789abcdef" !! Z.to_nat d).
Definition hex_word (w : Z) : list ascii :=
  (λ i, hex_digit (Z.shiftr (w mod 2 ^ 32) (4 * i) mod 16)) <$> [7; 6; 5; 4; 3; 2; 1; 0].
Definition hex_fromBits (ws : list Z) : string :=
  String.string_of_list_ascii (concat (hex_word <$> ws)).

Definition is_lower_hex (c : ascii) : bool :=
  let n := Ascii.nat_of_ascii c in
  ((48 <=? n) && (n <=? 57) || (97 <=? n) && (n <=? 102))%nat.

Definition getDataKeySync `{KeyedHash} (sessionKey domainKey : string)
    (inputData : number) : string :=
  let hmac := hmac_sha256 (utf8String_toBits (sessionKey +:+ domainKey)) in
  hex_fromBits (vec_to_list (hmac inputData)).

(** ** A regular expression engine for the examples

    The fragment of the pattern language in which every character stands
    for itself: plain characters, and a syntax character after a
    backslash.  Such a source compiles, and the expression matches the
    texts that contain the characters it denotes.  Sources outside the
    fragment are rejected by this engine; the examples use sources of the
    fragment and the source of a lone opening parenthesis, which is not
    a regular expression. *)
Definition is_syntax_char (c : ascii) : bool :=
  bool_decide (c ∈ String.list_ascii_of_string "^$\.*+?()[]{}|/").

Definition is_plain_char (c : ascii) : bool :=
  let n := Ascii.nat_of_ascii c in
  ((48 <=? n) && (n <=? 57) || (65 <=? n) && (n <=? 90)
   || (97 <=? n) && (n <=? 122))%nat
  || bool_decide (c ∈ String.list_ascii_of_string "-_:/ ").

Fixpoint literal_source (l : list ascii) : option (list ascii) :=
  match l with
  | [] => Some []
  | c :: rest =>
      if decide (c = "\"%char) then
        match rest with
        | e :: rest' =>
            if is_syntax_char e then (λ cs, e :: cs) <$> literal_source rest'
            else None
        | [] => None
        end
      else if is_plain_char c then (λ cs, c :: cs) <$> literal_source rest
      else None
  end.

Fixpoint starts_with (needle text : list ascii) : bool :=
  match needle, text with
  | [], _ => true
  | c :: needle', d :: text' => bool_decide (c = d) && starts_with needle' text'
  | _ :: _, [] => false
  end.

Fixpoint contains (needle text : list ascii) : bool :=
  starts_with needle text ||
  match text with
  | [] => false
  | _ :: text' => contains needle text'
  end.

Definition literal_engine : RegExpEngine :=
  {| RegExp := list ascii;
     RegExp_new := λ source, literal_source (String.list_ascii_of_string source);
     RegExp_test := λ regex text, contains regex (String.list_ascii_of_string text) |}.

(** ** Inputs of the examples *)

(** Two configurations in a row; the second does not name the feature
    ["f"] of the first. *)
Definition first_config : init_args :=
  InitArgs false (Some [("f", ["broken-lib\.js"])]).
Definition second_config : init_args :=
  InitArgs false (Some [("h", ["other-lib"])]).
Definition after_first : @module_state literal_engine :=
  (initStringExemptionLists first_config initial_state).2.
Definition after_second : @module_state literal_engine :=
  (initStringExemptionLists second_config after_first).2.
Definition broken_lib_stack : stack_capture :=
  StackLines [TextLine "Error";
              TextLine "    at run (https://cdn.example.com/broken-lib.js:10:5)"].

(** A host that fails while formatting the stack. *)
Definition prepare_failure : exception := HostError "prepareStackTrace".

(** A configuration whose second feature has a source that does not
    compile. *)
Definition failing_config : init_args :=
  InitArgs true
    (Some [("f", ["broken-lib\.js"]);
           ("g", ["legacy-player"; "("; "never-reached"]);
           ("h", ["other-lib"])]).

(** A page whose state is the number of calls made so far; the native
    callable answers with a string and the substitute with a number. *)
Definition native_toDataURL : @callable nat :=
  λ _ _ calls, (Returns (VString "data:image/png;base64,AAAA"), S calls).
Definition substitute_toDataURL : @callable nat :=
  λ _ _ calls, (Returns (VNumber (Num 0)), S calls).
Definition post_ok : string -> debug_message -> nat -> outcome unit * nat :=
  λ _ _ calls, (Returns tt, calls).
Definition canvas_proxy : @DDGProxy nat :=
  new_DDGProxy "fingerprinting-canvas" native_toDataURL "toDataURL" substitute_toDataURL.
Definition canvas_state : @module_state literal_engine :=
  (initStringExemptionLists
     (InitArgs false (Some [("fingerprintingCanvas", ["broken-lib\.js"])]))
     initial_state).2.
Definition quiet_context : call_context :=
  CallContext broken_lib_stack (Returns "Error") "https://example.com/".
Definition debug_on : @module_state literal_engine :=
  (initStringExemptionLists (InitArgs true None) initial_state).2.

(** An object with a configurable property whose value is [null]. *)
Definition screen_object : js_object :=
  {| properties := {[ "availTop" := DataProperty VNull true ]}; extensible := true |}.
Definition availTop_prop : override_prop :=
  {| object := screen_object; origValue := VNull; targetValue := VNumber (Num 0) |}.

(** ** isFeatureBroken (utils.js, line 123) *)

(** ToBoolean on the values of the model. *)
Definition truthy (v : value) : bool :=
  match v with
  | VUndefined | VNull => false
  | VBool b => b
  | VNumber NaN => false
  | VNumber (Num z) => negb (z =? 0)
  | VString s => negb (bool_decide (s = ""))
  | VBigInt z => negb (z =? 0)
  end.

(** [args.site]; [enabledFeatures] is an array, [None] when the property
    is missing, so that calling [includes] on it raises. *)
Record site : Type := Site {
  isBroken : value;
  allowlisted : value;
  enabledFeatures : option (list value)
}.

(** [array.includes(v)] *)
Definition Array_includes (array : list value) (v : value) : bool :=
  bool_decide (v ∈ array).

(** [a || b || !c]: the first truthy operand itself, else the negation. *)
Definition isFeatureBroken (s : site) (feature : string) : outcome value :=
  if truthy (isBroken s) then Returns (isBroken s)
  else if truthy (allowlisted s) then Returns (allowlisted s)
  else
    match enabledFeatures s with
    | None => Throws TypeError
    | Some array => Returns (VBool (negb (Array_includes array (VString feature))))
    end.

(** ** getFeatureSetting and getFeatureSettingEnabled (utils.js, lines 198
    and 209)

    [args.featureSettings?.[camelFeatureName]?.[prop]].  [args] is an
    object or is missing ([None]: reading a property of [undefined]
    raises); [featureSettings], when present, is an object that maps a
    feature to the object of its settings, or to [null] ([None]). *)
Record feature_args : Type := FeatureArgs {
  featureSettings : option (gmap string (option (gmap string value)))
}.

(** A read of a property goes through the prototype of the object: the
    names that a plain object inherits from [Object.prototype] on an
    unmodified host. *)
Definition Object_prototype_names : list string :=
  ["constructor"; "__defineGetter__"; "__defineSetter__"; "hasOwnProperty";
   "__lookupGetter__"; "__lookupSetter__"; "isPrototypeOf";
   "propertyIsEnumerable"; "toString"; "valueOf"; "__proto__"; "toLocaleString"].

(** What the chain of reads yields: a value stored in the settings
    ([undefined] where a level is missing), or whatever the built-in
    objects of the host give once a read has left the settings through
    an inherited name: a built-in function or object or one of their
    properties, none of which is the string ['enabled']. *)
Inductive setting : Type :=
| Stored (v : value)
| FromPrototype.

Global Instance setting_eq_dec : EqDecision setting.
Proof. solve_decision. Defined.

(** [object[name]] on a plain object with the given own entries. *)
Definition read_own_or_inherited {A : Type} (entries : gmap string A) (name : string)
    (own : A -> setting) : setting :=
  match entries !! name with
  | Some a => own a
  | None =>
      if bool_decide (name ∈ Object_prototype_names) then FromPrototype
      else Stored VUndefined
  end.

Definition getFeatureSetting (featureName : string) (args : option feature_args)
    (prop : string) : outcome setting :=
  let camelFeatureName := camelcase featureName in
  match args with
  | None => Throws TypeError
  | Some args =>
      match featureSettings args with
      | None => Returns (Stored VUndefined)
      | Some settings =>
          Returns
            (read_own_or_inherited settings camelFeatureName
               (λ feature,
                  match feature with
                  | None => Stored VUndefined
                  | Some feature => read_own_or_inherited feature prop Stored
                  end))
      end
  end.

Definition getFeatureSettingEnabled (featureName : string)
    (args : option feature_args) (prop : string) : outcome bool :=
  match getFeatureSetting featureName args prop with
  | Throws e => Throws e
  | Returns result => Returns (bool_decide (result = Stored (VString "enabled")))
  end.

(** ** Auxiliary notions for the properties *)

(** The values of [item] in [n] rounds, from a first value. *)
Fixpoint iterates (n : nat) (item : number) : list number :=
  match n with
  | O => []
  | S n' => item :: iterates n' (nextRandom item)
  end.

(** Text of characters below 128. *)
Definition is_ascii_text (l : list ascii) : bool :=
  forallb (λ c, Ascii.nat_of_ascii c <? 128)%nat l.

(** Dash-case text: every dash is followed by a character that is
    neither a dash nor a line terminator. *)
Fixpoint dash_case (l : list ascii) : bool :=
  match l with
  | [] => true
  | x :: tl =>
      if decide (x = "-"%char) then
        match tl with
        | letter :: rest =>
            negb (bool_decide (letter = "-"%char)) && negb (is_line_terminator letter)
            && dash_case rest
        | [] => false
        end
      else dash_case tl
  end.

(** The text lines of a stack before the first element whose match
    raises. *)
Fixpoint leading_text (lines : list stack_line) : list string :=
  match lines with
  | TextLine line :: rest => line :: leading_text rest
  | _ => []
  end.

(** Whether a line names a path that one of the expressions matches. *)
Definition line_exempt `{RegExpEngine} (regexes : list RegExp) (line : string) : bool :=
  match lineTest_match line with
  | Some path => any_test regexes path
  | None => false
  end.

(** The value under the [Math.abs] of [nextRandom], on a 32-bit
    operand. *)
Definition lfsr_step (x : Z) : Z :=
  Z.lor (Z.shiftr x 1)
        (Z.land (Z.lxor (wrap32 (x * 2 ^ 30)) (wrap32 (x * 2 ^ 29))) mask32).

(** ** Further inputs of the examples *)

Definition repeated_frames : list stack_line :=
  [TextLine "Error";
   TextLine "    at a (https://example.com/app.js:1:1)";
   TextLine "    at b (https://example.com/app.js:7:3)";
   TextLine "    at run (https://cdn.example.com/broken-lib.js:10:5)";
   BadLine TypeError].

Definition extension_frames : list stack_line :=
  [TextLine "Error";
   TextLine "    at run (chrome-extension://abcdef/broken-lib.js:10:5)";
   TextLine "    at file:///home/user/broken-lib.js:3:1"].

Definition canvas_args : option feature_args :=
  Some {| featureSettings :=
            Some {[ "fingerprintingCanvas" := Some {[ "webGl" := VString "enabled" ]} ]} |}.

Definition frozen_object : js_object :=
  {| properties := {[ "availTop" := DataProperty (VNumber (Num 24)) false;
                      "availLeft" := DataProperty (VNumber (Num 0)) true ]};
     extensible := false |}.
Definition frozen_prop : override_prop :=
  {| object := frozen_object; origValue := VNumber (Num 24); targetValue := VNumber (Num 0) |}.

Definition bare_object : js_object := {| properties := ∅; extensible := true |}.


(** * Properties *)

(** ** 32-bit integers *)

Section Int32.
Lemma wrap32_range (z : Z) : - 2 ^ 31 <= wrap32 z < 2 ^ 31.
Proof.
  unfold wrap32.
  pose proof (Z.mod_pos_bound (z + 2 ^ 31) (2 ^ 32) ltac:(lia)). lia.
Qed.

Lemma wrap32_small (z : Z) : - 2 ^ 31 <= z < 2 ^ 31 -> wrap32 z = z.
Proof.
  intros Hz. unfold wrap32. rewrite Z.mod_small; lia.
Qed.

Lemma wrap32_idemp (z : Z) : wrap32 (wrap32 z) = wrap32 z.
Proof. apply wrap32_small, wrap32_range. Qed.

(** A number is a signed 32-bit integer exactly when the bits from
    position 31 upwards are all equal. *)
Lemma int32_sign_bits (z : Z) :
  - 2 ^ 31 <= z < 2 ^ 31 <-> Z.shiftr z 31 = 0 \/ Z.shiftr z 31 = -1.
Proof.
  rewrite Z.shiftr_div_pow2 by lia.
  split.
  - intros Hz. destruct (Z.neg_nonneg_cases z) as [Hn | Hp].
    + right. symmetry. apply (Z.div_unique z (2 ^ 31) (-1) (z + 2 ^ 31)); lia.
    + left. apply Z.div_small. lia.
  - pose proof (Z.div_mod z (2 ^ 31) ltac:(lia)) as Hd.
    pose proof (Z.mod_pos_bound z (2 ^ 31) ltac:(lia)) as Hm.
    intros [Hq | Hq]; rewrite Hq in Hd; lia.
Qed.

(** A bitwise operator that commutes with the shift keeps the sign bits
    equal: the four combinations of sign bits are computed. *)
Ltac by_sign_bits shiftr_op :=
  rewrite !int32_sign_bits, shiftr_op;
  intros [-> | ->] [-> | ->]; vm_compute; auto.

Lemma int32_lxor (a b : Z) :
  - 2 ^ 31 <= a < 2 ^ 31 -> - 2 ^ 31 <= b < 2 ^ 31 ->
  - 2 ^ 31 <= Z.lxor a b < 2 ^ 31.
Proof. by_sign_bits Z.shiftr_lxor. Qed.

Lemma int32_land (a b : Z) :
  - 2 ^ 31 <= a < 2 ^ 31 -> - 2 ^ 31 <= b < 2 ^ 31 ->
  - 2 ^ 31 <= Z.land a b < 2 ^ 31.
Proof. by_sign_bits Z.shiftr_land. Qed.

Lemma int32_lor (a b : Z) :
  - 2 ^ 31 <= a < 2 ^ 31 -> - 2 ^ 31 <= b < 2 ^ 31 ->
  - 2 ^ 31 <= Z.lor a b < 2 ^ 31.
Proof. by_sign_bits Z.shiftr_lor. Qed.

Lemma int32_sar1 (a : Z) :
  - 2 ^ 31 <= a < 2 ^ 31 -> - 2 ^ 31 <= Z.shiftr a 1 < 2 ^ 31.
Proof.
  intros Ha. rewrite Z.shiftr_div_pow2 by lia.
  change (2 ^ 1) with 2.
  pose proof (Z.div_mod a 2 ltac:(lia)). pose proof (Z.mod_pos_bound a 2 ltac:(lia)).
  lia.
Qed.

Lemma nextRandom_as_int32 (v : Z) :
  nextRandom (Num v) = Num (nextRandom_int32 (wrap32 v)).
Proof.
  unfold nextRandom, nextRandom_int32, ToInt32. f_equal. f_equal.
  set (x := wrap32 v).
  assert (Hx : - 2 ^ 31 <= x < 2 ^ 31) by apply wrap32_range.
  assert (Hm : js_shl (js_not (js_shl (js_not 0) 63)) 62 = mask32) by (vm_compute; reflexivity).
  rewrite Hm.
  assert (H62 : js_shl x 62 = wrap32 (x * 2 ^ 30)).
  { unfold js_shl. change (62 mod 32) with 30.
    rewrite Z.shiftl_mul_pow2 by lia. now rewrite (wrap32_small x). }
  assert (H61 : js_shl x 61 = wrap32 (x * 2 ^ 29)).
  { unfold js_shl. change (61 mod 32) with 29.
    rewrite Z.shiftl_mul_pow2 by lia. now rewrite (wrap32_small x). }
  rewrite H62, H61.
  unfold js_or, js_and, js_xor, js_sar. change (1 mod 32) with 1.
  rewrite !wrap32_idemp, (wrap32_small x) by assumption.
  assert (Hmask : - 2 ^ 31 <= mask32 < 2 ^ 31) by (vm_compute; split; congruence).
  rewrite (wrap32_small mask32) by assumption.
  pose proof (int32_lxor _ _ (wrap32_range (x * 2 ^ 30)) (wrap32_range (x * 2 ^ 29))) as Hxor.
  rewrite (wrap32_small (Z.lxor _ _)) by assumption.
  pose proof (int32_land _ _ Hxor Hmask) as Hand.
  rewrite (wrap32_small (Z.land _ _)) by assumption.
  rewrite (wrap32_small (Z.shiftr x 1)) by now apply int32_sar1.
  reflexivity.
Qed.

Lemma nextRandom_int32_bounds (x : Z) :
  - 2 ^ 31 <= x < 2 ^ 31 -> 0 <= nextRandom_int32 x <= 2 ^ 31.
Proof.
  intros Hx. unfold nextRandom_int32.
  assert (Hmask : - 2 ^ 31 <= mask32 < 2 ^ 31) by (vm_compute; split; congruence).
  pose proof (int32_lxor _ _ (wrap32_range (x * 2 ^ 30)) (wrap32_range (x * 2 ^ 29))) as Hxor.
  pose proof (int32_land _ _ Hxor Hmask) as Hand.
  pose proof (int32_lor _ _ (int32_sar1 _ Hx) Hand). lia.
Qed.
End Int32.

(** ** The linear feedback shift register *)

(** C4 (as amended). For every 63-bit unsigned [v] that is a number of
    the program, that is, exactly representable as a double,
    [nextRandom v] is the absolute value of
    [(x >> 1) | (((x << 30) ^ (x << 29)) & mask)] computed in signed
    32-bit arithmetic, where [x] is [v] reduced to 32 bits and [mask]
    holds bits 30 and 31; the result is defined and lies between 0 and
    2^31. *)
Theorem nextRandom_int32_semantics (v : Z) :
  0 <= v < 2 ^ 63 ->
  exactly_representable v = true ->
  nextRandom (Num v) = Num (nextRandom_int32 (wrap32 v))
  ∧ 0 <= nextRandom_int32 (wrap32 v) <= 2 ^ 31.
Proof.
  intros _ _. split.
  - apply nextRandom_as_int32.
  - apply nextRandom_int32_bounds, wrap32_range.
Qed.

(** The largest double below 2^63, and the largest integer below which
    every integer is a double. *)
Lemma nextRandom_int32_semantics_witness :
  (nextRandom (Num (2 ^ 63 - 2 ^ 10)) = Num (nextRandom_int32 (wrap32 (2 ^ 63 - 2 ^ 10)))
   ∧ 0 <= nextRandom_int32 (wrap32 (2 ^ 63 - 2 ^ 10)) <= 2 ^ 31)
  ∧ (nextRandom (Num (2 ^ 53 - 1)) = Num (nextRandom_int32 (wrap32 (2 ^ 53 - 1)))
     ∧ 0 <= nextRandom_int32 (wrap32 (2 ^ 53 - 1)) <= 2 ^ 31).
Proof.
  split.
  - apply (nextRandom_int32_semantics (2 ^ 63 - 2 ^ 10)); [lia | reflexivity].
  - apply (nextRandom_int32_semantics (2 ^ 53 - 1)); [lia | reflexivity].
Defined.

(** C4 as stated fails: whatever the mask, the 63-bit reading keeps bit
    32 of the input as bit 31 of the result, while [nextRandom] drops
    it. *)
Lemma nextRandom_not_63_bit_wide :
  ¬ ∃ mask, ∀ v, 0 <= v < 2 ^ 63 ->
      nextRandom (Num v) = Num (nextRandom_wide63 mask v).
Proof.
  intros [mask Hall]. specialize (Hall (2 ^ 32) ltac:(lia)).
  assert (Hjs : nextRandom (Num (2 ^ 32)) = Num 0) by (vm_compute; reflexivity).
  rewrite Hjs in Hall. injection Hall as Hall. symmetry in Hall.
  unfold nextRandom_wide63 in Hall.
  apply Z.abs_0_iff, Z.lor_eq_0_iff in Hall as [Hhigh _].
  vm_compute in Hhigh. discriminate Hhigh.
Qed.

Example representable_values :
  exactly_representable (2 ^ 53) = true ∧ exactly_representable (2 ^ 53 + 1) = false
  ∧ exactly_representable (2 ^ 63 - 1) = false
  ∧ exactly_representable (2 ^ 63 - 2 ^ 10) = true
  ∧ exactly_representable (2 ^ 53 - 1 + 2 ^ 32) = false
  ∧ nextRandom (Num (2 ^ 63 - 2 ^ 10)) = Num 512.
Proof. vm_compute. repeat split. Qed.

Example nextRandom_values :
  nextRandom (Num 0) = Num 0 ∧ nextRandom (Num 1) = Num (2 ^ 30)
  ∧ nextRandom (Num 2) = Num (2 ^ 30 - 1) ∧ nextRandom (Num 3) = Num (2 ^ 31 - 1)
  ∧ nextRandom (Num (2 ^ 32)) = Num 0 ∧ nextRandom NaN = Num 0
  ∧ nextRandom_wide63 mask63 1 = 2 ^ 62
  ∧ nextRandom_wide63 mask63 (2 ^ 32) = 2 ^ 31.
Proof. vm_compute. repeat split. Qed.

(** ** The key iterator *)

Section KeyIteratorFacts.
Context {St : Type}.
Variable callback : number -> Z -> St -> cb_result * St.

Lemma stopped_cons e t : inv_result e = ResOther -> stopped t -> stopped (e :: t).
Proof.
  intros He (t0 & e' & -> & Hq & Hn).
  exists (e :: t0), e'. repeat split; [| assumption].
  now constructor.
Qed.

Lemma stopped_app t t' : quiet t -> stopped t' -> stopped (t ++ t').
Proof.
  intros Ht (t0 & e' & -> & Hq & Hn).
  exists (t ++ t0), e'. rewrite app_assoc. repeat split; [| assumption].
  now apply Forall_app.
Qed.

Lemma bit_loop_trace n item byte s :
  match bit_loop callback n item byte s with
  | (Completed _, _, t) => length t = n ∧ quiet t
  | (Returned, _, t) => stopped t
  end.
Proof.
  revert item byte s. induction n as [| n IH]; intros item byte s; simpl.
  - split; [reflexivity | constructor].
  - destruct (callback item byte s) as [res s1] eqn:Hcb.
    destruct res.
    + exists [], (Invoked item byte ResNull). repeat split. constructor.
    + specialize (IH (nextRandom item) (js_sar byte 1) s1).
      destruct (bit_loop callback n (nextRandom item) (js_sar byte 1) s1)
        as [[f s2] t].
      destruct f as [item' |].
      * destruct IH as [Hlen Hq]. split; [simpl; congruence |].
        now constructor.
      * now apply stopped_cons.
Qed.

Lemma char_loop_trace chars item s :
  let t := (char_loop callback chars item s).2 in
  quiet t ∨ stopped t.
Proof.
  revert item s. induction chars as [| c rest IH]; intros item s.
  - left. constructor.
  - cbn [char_loop].
    pose proof (bit_loop_trace 9 item c s) as Hb.
    destruct (bit_loop callback 9 item c s) as [[f s1] t].
    destruct f as [item1 |]; cbn [snd].
    + destruct Hb as [_ Hq]. specialize (IH item1 s1).
      destruct (char_loop callback rest item1 s1) as [s2 t']. cbn [snd] in *.
      destruct IH as [Hq' | Hs].
      * left. now apply Forall_app.
      * right. now apply stopped_app.
    + now right.
Qed.

Lemma stop_is_last (t : list invocation) k e :
  quiet t ∨ stopped t -> t !! k = Some e -> inv_result e = ResNull ->
  length t = S k.
Proof.
  intros [Hq | (t0 & e' & -> & Hq & Hn)] Hk He.
  - unfold quiet in Hq. rewrite Forall_lookup in Hq.
    specialize (Hq _ _ Hk). congruence.
  - rewrite length_app. simpl.
    destruct (decide (k < length t0)%nat) as [Hlt | Hge].
    + rewrite lookup_app_l in Hk by assumption.
      unfold quiet in Hq. rewrite Forall_lookup in Hq.
      specialize (Hq _ _ Hk). congruence.
    + apply lookup_lt_Some in Hk. rewrite length_app in Hk. simpl in Hk. lia.
Qed.

Section NeverStops.
Hypothesis never_null : ∀ item byte s, (callback item byte s).1 = ResOther.

Lemma bit_loop_runs_out n item byte s :
  ∃ item' s' t, bit_loop callback n item byte s = (Completed item', s', t)
    ∧ length t = n ∧ inv_byte <$> t = shifted n byte.
Proof.
  revert item byte s. induction n as [| n IH]; intros item byte s; simpl.
  - now exists item, s, [].
  - pose proof (never_null item byte s) as Hres.
    destruct (callback item byte s) as [res s1]. simpl in Hres. subst res.
    destruct (IH (nextRandom item) (js_sar byte 1) s1) as (item' & s' & t & -> & Hlen & Hb).
    exists item', s', (Invoked item byte ResOther :: t).
    split; [reflexivity |]. split; [simpl; congruence |].
    rewrite fmap_cons, Hb. reflexivity.
Qed.

Lemma char_loop_runs_out chars item s :
  let t := (char_loop callback chars item s).2 in
  length t = (9 * length chars)%nat ∧ inv_byte <$> t = chars ≫= shifted 9.
Proof.
  revert item s. induction chars as [| c rest IH]; intros item s.
  - now split.
  - cbn [char_loop].
    destruct (bit_loop_runs_out 9 item c s) as (item' & s' & t & -> & Hlen & Hb).
    specialize (IH item' s').
    destruct (char_loop callback rest item' s') as [s2 t']. cbn [snd] in *.
    destruct IH as [Hlen' Hb']. split.
    + rewrite length_app. cbn [length]. lia.
    + rewrite fmap_app, Hb, Hb'. reflexivity.
Qed.
End NeverStops.
End KeyIteratorFacts.

(** The counting callback [stop_at k] ends the walk at its [k]-th
    invocation. *)
Lemma bit_loop_stop_at (k n : nat) (item : number) (byte : Z) (calls : nat) :
  (calls < k)%nat ->
  match bit_loop (stop_at k) n item byte calls with
  | (f, calls', t) =>
      calls' = (calls + length t)%nat
      ∧ length t = (n `min` (k - calls))%nat
      ∧ match f with
        | Completed _ => (calls + n < k)%nat
        | Returned => (k <= calls + n)%nat
        end
  end.
Proof.
  revert item byte calls. induction n as [| n IH]; intros item byte calls Hlt.
  - cbn [bit_loop length]. lia.
  - cbn [bit_loop]. unfold stop_at at 1.
    destruct (decide (S calls = k)) as [Heq | Hne].
    + cbn [length]. lia.
    + specialize (IH (nextRandom item) (js_sar byte 1) (S calls) ltac:(lia)).
      destruct (bit_loop (stop_at k) n (nextRandom item) (js_sar byte 1) (S calls))
        as [[f calls'] t].
      destruct IH as (Hcalls & Hlen & Hf). cbn [length].
      split; [lia |]. split; [lia |]. destruct f; lia.
Qed.

Lemma char_loop_stop_at (k : nat) (chars : list Z) (item : number) (calls : nat) :
  (calls < k)%nat ->
  let '(calls', t) := char_loop (stop_at k) chars item calls in
  calls' = (calls + length t)%nat
  ∧ length t = ((9 * length chars) `min` (k - calls))%nat.
Proof.
  revert item calls. induction chars as [| c rest IH]; intros item calls Hlt.
  - cbn [char_loop length]. lia.
  - cbn [char_loop].
    pose proof (bit_loop_stop_at k 9 item c calls Hlt) as Hb.
    destruct (bit_loop (stop_at k) 9 item c calls) as [[f calls1] t].
    destruct Hb as (Hcalls & Hlen & Hf).
    destruct f as [item1 |].
    + specialize (IH item1 calls1 ltac:(lia)).
      destruct (char_loop (stop_at k) rest item1 calls1) as [calls2 t'].
      destruct IH as [Hcalls' Hlen'].
      rewrite length_app. cbn [length]. lia.
    + cbn [length]. lia.
Qed.

(** C3. With a callback that never returns [null], [iterateDataKey] makes
    exactly nine invocations for each character of the key, with the
    character code shifted right once more at each of the nine; an
    invocation that returns [null] is the last one, so that a [null] at
    the [k]-th invocation leaves exactly [k] invocations; and the
    callback that returns [null] on its [k]-th invocation is invoked
    exactly [k] times, for every [k] from 1 to nine times the length of
    the key. *)
Theorem iterateDataKey_invocations {St : Type}
    (callback : number -> Z -> St -> cb_result * St) (key : list Z) (s : St) :
  let t := (iterateDataKey callback key s).2 in
  ((∀ item byte s0, (callback item byte s0).1 = ResOther) ->
   length t = (9 * length key)%nat ∧ inv_byte <$> t = key ≫= shifted 9)
  ∧ (∀ k e, t !! k = Some e -> inv_result e = ResNull -> length t = S k)
  ∧ (∀ k, (1 <= k <= 9 * length key)%nat ->
       length (iterateDataKey (stop_at k) key 0%nat).2 = k).
Proof.
  unfold iterateDataKey. split; [| split].
  - intros Hnever. now apply char_loop_runs_out.
  - intros k e. apply stop_is_last, char_loop_trace.
  - intros k Hk.
    pose proof (char_loop_stop_at k key (charCodeAt key 0) 0%nat ltac:(lia)) as Hstop.
    destruct (char_loop (stop_at k) key (charCodeAt key 0) 0%nat) as [calls t].
    cbn [snd]. lia.
Qed.

(** The key ["ab"]: eighteen invocations without a stop, five with a
    stop at the fifth. *)
Lemma iterateDataKey_invocations_witness :
  length (iterateDataKey never_stop (code_units "ab") tt).2 = 18%nat
  ∧ length (iterateDataKey (stop_at 5) (code_units "ab") 0%nat).2 = 5%nat
  ∧ (iterateDataKey (stop_at 5) (code_units "ab") 0%nat).2 !! 4%nat
    = Some (Invoked (Num 2013265914) 6 ResNull).
Proof.
  destruct (iterateDataKey_invocations never_stop (code_units "ab") tt)
    as (Hall & _ & Hstop).
  split; [apply Hall; reflexivity |].
  split; [apply (Hstop 5%nat); cbn; lia | reflexivity].
Defined.

(** C9. On the empty key [iterateDataKey] returns without invoking the
    callback and leaves the state of the callback as it was, whatever the
    callback. *)
Theorem iterateDataKey_empty_key {St : Type}
    (callback : number -> Z -> St -> cb_result * St) (s : St) :
  iterateDataKey callback [] s = (s, []).
Proof. reflexivity. Qed.


(** ** Configuration of the exemption lists *)

Section InitFacts.
Context `{RegExpEngine}.

Lemma with_list_same σ type regexes :
  exemptionLists σ !! type = Some regexes -> with_list σ type regexes = σ.
Proof.
  intros Hl. destruct σ as [lists dbg]. unfold with_list. simpl in *.
  now rewrite insert_id.
Qed.

Lemma with_list_twice σ type a b :
  with_list (with_list σ type a) type b = with_list σ type b.
Proof. unfold with_list. simpl. now rewrite insert_insert_eq. Qed.

Lemma lookup_with_list σ type regexes t :
  exemptionLists (with_list σ type regexes) !! t
  = if decide (type = t) then Some regexes else exemptionLists σ !! t.
Proof. unfold with_list. simpl. apply lookup_insert. Qed.

Lemma compile_all_cons source rest :
  compile_all (source :: rest)
  = match RegExp_new source with
    | Some regex => (λ regexes, regex :: regexes) <$> compile_all rest
    | None => None
    end.
Proof.
  unfold compile_all. cbn. destruct (RegExp_new source); [| reflexivity].
  cbn. destruct (mapM RegExp_new rest); reflexivity.
Qed.

Lemma compiled_prefix_all sources regexes :
  compile_all sources = Some regexes -> compiled_prefix sources = regexes.
Proof.
  revert regexes. induction sources as [| source rest IH]; intros regexes.
  - intros [= <-]. reflexivity.
  - rewrite compile_all_cons. cbn [compiled_prefix].
    destruct (RegExp_new source) as [regex |]; [| discriminate].
    destruct (compile_all rest) as [regexes' |]; [| discriminate].
    cbn. intros [= <-]. f_equal. now apply IH.
Qed.

Lemma compiled_prefix_until good bad rest regexes :
  compile_all good = Some regexes -> RegExp_new bad = None ->
  compiled_prefix (good ++ bad :: rest) = regexes
  ∧ compile_all (good ++ bad :: rest) = None.
Proof.
  intros Hgood Hbad. revert regexes Hgood.
  induction good as [| source good IH]; intros regexes.
  - cbn [app]. rewrite compile_all_cons. cbn [compiled_prefix]. rewrite Hbad.
    cbn. intros [= <-]. now split.
  - cbn [app]. rewrite !compile_all_cons. cbn [compiled_prefix].
    destruct (RegExp_new source) as [regex |]; [| discriminate].
    destruct (compile_all good) as [regexes' |]; [| discriminate].
    cbn. intros [= <-]. destruct (IH _ eq_refl) as [-> ->]. now split.
Qed.

(** The inner loop appends the expressions of the sources up to the
    first one that does not compile, and raises there. *)
Lemma push_loop type sources acc σ :
  exemptionLists σ !! type = Some acc ->
  for_of sources (compile_and_push type) σ
  = (compile_result sources,
     with_list σ type (acc ++ compiled_prefix sources)).
Proof.
  revert acc σ. induction sources as [| source rest IH]; intros acc σ Hacc.
  - cbn. rewrite app_nil_r. now rewrite with_list_same.
  - cbn [for_of compiled_prefix].
    unfold bind at 1. unfold compile_and_push at 1, new_RegExp.
    destruct (RegExp_new source) as [regex |] eqn:Hnew.
    + unfold bind at 1, ret, push_regex, assign_list. rewrite Hacc.
      rewrite (IH (acc ++ [regex])).
      * rewrite with_list_twice, <- app_assoc. cbn [app].
        unfold compile_result. rewrite compile_all_cons, Hnew.
        destruct (compile_all rest); reflexivity.
      * rewrite lookup_with_list. now rewrite decide_True.
    + unfold bind, throw, compile_result.
      rewrite compile_all_cons, Hnew, app_nil_r. now rewrite with_list_same.
Qed.

Lemma init_feature_spec type sources σ :
  init_feature (type, sources) σ
  = (compile_result sources,
     with_list σ type (compiled_prefix sources)).
Proof.
  unfold init_feature, bind, assign_list.
  rewrite (push_loop type sources []).
  - now rewrite with_list_twice.
  - rewrite lookup_with_list. now rewrite decide_True.
Qed.

Lemma for_of_app {A} (xs ys : list A) (body : A -> M unit) σ :
  for_of (xs ++ ys) body σ = (for_of xs body >> for_of ys body) σ.
Proof.
  revert σ. induction xs as [| x xs IH]; intros σ.
  - reflexivity.
  - cbn [app for_of]. unfold bind.
    destruct (body x σ) as [[[] | e] σ1]; [| reflexivity].
    rewrite IH. reflexivity.
Qed.

(** The outer loop, when it completes. *)
Lemma init_loop_returns entries σ σ' :
  for_of entries init_feature σ = (Returns tt, σ') ->
  NoDup entries.*1 ->
  debug σ' = debug σ
  ∧ (∀ type sources, (type, sources) ∈ entries ->
       is_Some (compile_all sources)
       ∧ exemptionLists σ' !! type = compile_all sources)
  ∧ (∀ type, type ∉ entries.*1 ->
       exemptionLists σ' !! type = exemptionLists σ !! type).
Proof.
  revert σ. induction entries as [| [t srcs] rest IH]; intros σ Hrun Hnd.
  - cbn in Hrun. injection Hrun as <-.
    split; [reflexivity |]. split; [| reflexivity].
    intros type sources Hin. now apply elem_of_nil in Hin.
  - cbn [for_of] in Hrun. unfold bind in Hrun.
    rewrite init_feature_spec in Hrun. unfold compile_result in Hrun.
    destruct (compile_all srcs) as [regexes |] eqn:Hc; [| discriminate].
    apply compiled_prefix_all in Hc as Hp. rewrite Hp in Hrun.
    cbn [fmap list_fmap fst] in Hnd. apply NoDup_cons in Hnd as [Hfresh Hnd].
    destruct (IH _ Hrun Hnd) as (Hdbg & Hnamed & Hother).
    split; [exact Hdbg |]. split.
    + intros type sources Hin. apply elem_of_cons in Hin as [[= -> ->] | Hin].
      * split; [rewrite Hc; eauto |].
        rewrite (Hother _ Hfresh), lookup_with_list, decide_True by reflexivity.
        now rewrite Hc.
      * now apply Hnamed.
    + intros type Hnot. cbn [fmap list_fmap fst] in Hnot.
      apply not_elem_of_cons in Hnot as [Hne Hnot].
      rewrite (Hother _ Hnot), lookup_with_list.
      now rewrite decide_False by congruence.
Qed.
End InitFacts.

(** ** Lookups in the exemption lists *)

Section ExemptionFacts.
Context `{RegExpEngine}.

Lemma scan_lines_same_list σ σ' type errorLines errorFiles :
  exemptionLists σ' !! type = exemptionLists σ !! type ->
  scan_lines σ' type errorLines errorFiles = scan_lines σ type errorLines errorFiles.
Proof.
  intros Hsame. revert errorFiles.
  induction errorLines as [| [line | e] rest IH]; intros errorFiles; cbn [scan_lines].
  - reflexivity.
  - unfold shouldExemptUrl. rewrite Hsame.
    destruct (lineTest_match line) as [path |]; [| apply IH].
    destruct (decide (path ∈ errorFiles)); [apply IH |].
    destruct (exemptionLists σ !! type) as [regexes |]; [| reflexivity].
    destruct (any_test regexes path); [reflexivity | apply IH].
  - reflexivity.
Qed.

Lemma shouldExemptMethod_same_list σ σ' type stack :
  exemptionLists σ' !! type = exemptionLists σ !! type ->
  shouldExemptMethod σ' stack type = shouldExemptMethod σ stack type.
Proof.
  intros Hsame. unfold shouldExemptMethod, no_checks, stack_check.
  rewrite Hsame.
  destruct stack as [e | | errorLines]; try reflexivity.
  now rewrite (scan_lines_same_list σ σ').
Qed.

Lemma shouldExemptUrl_same_list σ σ' type url :
  exemptionLists σ' !! type = exemptionLists σ !! type ->
  shouldExemptUrl σ' type url = shouldExemptUrl σ type url.
Proof. intros Hsame. unfold shouldExemptUrl. now rewrite Hsame. Qed.

Lemma shouldExemptMethod_returns σ stack type :
  ∃ b, shouldExemptMethod σ stack type = Returns b.
Proof.
  unfold shouldExemptMethod.
  destruct (no_checks σ type); [eauto |].
  destruct (stack_check σ stack type); eauto.
Qed.

(** For a configured feature the [try] block raises only where the
    capture raises or where the match of a line does. *)
Lemma scan_lines_raises σ type regexes errorLines errorFiles e :
  exemptionLists σ !! type = Some regexes ->
  scan_lines σ type errorLines errorFiles = Throw e ->
  ∃ before rest, errorLines = before ++ BadLine e :: rest.
Proof.
  intros Hlist. revert errorFiles.
  induction errorLines as [| [line | e'] lines IH]; intros errorFiles; cbn [scan_lines].
  - discriminate.
  - unfold shouldExemptUrl. rewrite Hlist.
    intros Hthrow.
    assert (∃ files, scan_lines σ type lines files = Throw e) as [files Hrest].
    { destruct (lineTest_match line) as [path |]; [| eauto].
      destruct (decide (path ∈ errorFiles)); [eauto |].
      destruct (any_test regexes path); [discriminate | eauto]. }
    destruct (IH _ Hrest) as (before & rest & ->).
    now exists (TextLine line :: before), rest.
  - intros [= ->]. now exists [], lines.
Qed.

Lemma stack_check_raises σ type regexes stack e :
  exemptionLists σ !! type = Some regexes ->
  stack_check σ stack type = Throw e ->
  stack = StackThrows e
  ∨ ∃ before rest, stack = StackLines (before ++ BadLine e :: rest).
Proof.
  intros Hlist. destruct stack as [e' | | errorLines]; cbn.
  - intros [= ->]. now left.
  - discriminate.
  - intros Hthrow. right.
    destruct (scan_lines_raises _ _ _ _ _ _ Hlist Hthrow) as (before & rest & ->).
    eauto.
Qed.

(** With an empty list for the feature the stack is not looked at. *)
Lemma shouldExemptMethod_no_patterns σ stack type :
  exemptionLists σ !! type = Some [] ->
  shouldExemptMethod σ stack type = Returns false.
Proof.
  intros Hempty. unfold shouldExemptMethod, no_checks. now rewrite Hempty.
Qed.

Lemma init_loop_completes entries σ :
  Forall (λ entry, is_Some (compile_all entry.2)) entries ->
  ∃ σ', for_of entries init_feature σ = (Returns tt, σ').
Proof.
  intros Hall. revert σ.
  induction Hall as [| [type sources] rest [regexes Hc] _ IH]; intros σ.
  - now exists σ.
  - cbn [for_of]. unfold bind. rewrite init_feature_spec.
    unfold compile_result. cbn [snd] in Hc. rewrite Hc. apply IH.
Qed.
End ExemptionFacts.

(** ** Unconfigured features *)

(** C1 (the source departs from the claim). For a feature name that has
    no entry in [exemptionLists], [shouldExemptUrl] raises a TypeError
    for every URL instead of answering [false]; [shouldExemptMethod],
    which tests for the entry first, answers [false]. *)
Theorem shouldExemptUrl_unconfigured `{RegExpEngine} (σ : module_state)
    (type url : string) :
  exemptionLists σ !! type = None ->
  shouldExemptUrl σ type url = Throws TypeError
  ∧ ∀ stack, shouldExemptMethod σ stack type = Returns false.
Proof.
  intros Hnone. split.
  - unfold shouldExemptUrl. now rewrite Hnone.
  - intros stack. unfold shouldExemptMethod, no_checks. now rewrite Hnone.
Qed.

Lemma shouldExemptUrl_unconfigured_witness :
  @shouldExemptUrl literal_engine initial_state "g" "https://example.com/script.js"
  = Throws TypeError
  ∧ ∀ stack, @shouldExemptMethod literal_engine initial_state stack "g" = Returns false.
Proof.
  apply (@shouldExemptUrl_unconfigured literal_engine initial_state "g").
  reflexivity.
Defined.

Example exemption_matching :
  shouldExemptUrl after_first "f" "https://cdn.example.com/broken-lib.js" = Returns true
  ∧ shouldExemptUrl after_first "f" "https://cdn.example.com/other.js" = Returns false
  ∧ shouldExemptMethod after_first broken_lib_stack "f" = Returns true
  ∧ shouldExemptMethod after_first broken_lib_stack "g" = Returns false.
Proof. repeat split. Qed.

(** ** Repeated configuration *)

(** C2 (as amended). A call of [initStringExemptionLists] that returns
    sets [debug], replaces the list of every feature named in its mapping
    by the expressions of that mapping, and leaves every other feature as
    it was: for a feature that the mapping omits, [shouldExemptUrl] and
    [shouldExemptMethod] answer as before the call.  The feature names of
    a mapping are distinct. *)
Theorem initStringExemptionLists_named_features `{RegExpEngine}
    (args : init_args) (σ σ' : module_state) :
  initStringExemptionLists args σ = (Returns tt, σ') ->
  NoDup (default [] (arg_stringExemptionLists args)).*1 ->
  debug σ' = arg_debug args
  ∧ (∀ type sources,
       (type, sources) ∈ default [] (arg_stringExemptionLists args) ->
       exemptionLists σ' !! type = compile_all sources)
  ∧ (∀ type,
       type ∉ (default [] (arg_stringExemptionLists args)).*1 ->
       exemptionLists σ' !! type = exemptionLists σ !! type
       ∧ (∀ url, shouldExemptUrl σ' type url = shouldExemptUrl σ type url)
       ∧ (∀ stack, shouldExemptMethod σ' stack type = shouldExemptMethod σ stack type)).
Proof.
  unfold initStringExemptionLists, bind, set_debug.
  destruct args as [dbg [entries |]]; cbn [arg_debug arg_stringExemptionLists default].
  - intros Hrun Hnd.
    destruct (init_loop_returns _ _ _ Hrun Hnd) as (Hdbg & Hnamed & Hother).
    split; [exact Hdbg |]. split.
    + intros type sources Hin. now apply Hnamed.
    + intros type Hnot. specialize (Hother type Hnot). cbn in Hother.
      split; [exact Hother |]. split.
      * intros url. now apply shouldExemptUrl_same_list.
      * intros stack. now apply shouldExemptMethod_same_list.
  - intros [= <-] _. split; [reflexivity |]. split.
    + intros type sources Hin. now apply elem_of_nil in Hin.
    + intros type _. split; [reflexivity |]. split; intros.
      * now apply shouldExemptUrl_same_list.
      * now apply shouldExemptMethod_same_list.
Qed.

Lemma initStringExemptionLists_named_features_witness :
  debug after_second = false
  ∧ (∀ type sources,
       (type, sources) ∈ [("h", ["other-lib"])] ->
       exemptionLists after_second !! type = @compile_all literal_engine sources)
  ∧ (∀ type,
       type ∉ ["h"] ->
       exemptionLists after_second !! type = exemptionLists after_first !! type
       ∧ (∀ url, shouldExemptUrl after_second type url = shouldExemptUrl after_first type url)
       ∧ (∀ stack, shouldExemptMethod after_second stack type
                   = shouldExemptMethod after_first stack type)).
Proof.
  apply (@initStringExemptionLists_named_features literal_engine second_config after_first).
  - reflexivity.
  - compute_done.
Defined.

(** C2 as stated fails: after a second configuration that omits ["f"], a
    call from the library that the first one exempted is still
    exempt. *)
Lemma initStringExemptionLists_keeps_omitted_feature :
  ¬ (∀ (E : RegExpEngine) (first second : init_args) (σ1 σ2 : @module_state E)
       (type url : string) (stack : stack_capture),
       initStringExemptionLists first initial_state = (Returns tt, σ1) ->
       initStringExemptionLists second σ1 = (Returns tt, σ2) ->
       type ∈ (default [] (arg_stringExemptionLists first)).*1 ->
       type ∉ (default [] (arg_stringExemptionLists second)).*1 ->
       shouldExemptMethod σ2 stack type = Returns false
       ∧ shouldExemptUrl σ2 type url ≠ Returns true).
Proof.
  intros Hall.
  destruct (Hall literal_engine first_config second_config after_first after_second
              "f" "https://cdn.example.com/broken-lib.js" broken_lib_stack)
    as [Hmethod _].
  - reflexivity.
  - reflexivity.
  - compute_done.
  - compute_done.
  - vm_compute in Hmethod. discriminate Hmethod.
Qed.

(** ** Failures of the stack check *)

(** C5. For a feature configured with at least one pattern, an exception
    raised while the stack is captured or its lines are parsed does not
    leave [shouldExemptMethod]: the function returns [false]. *)
Theorem shouldExemptMethod_swallows_exceptions `{RegExpEngine}
    (σ : module_state) (stack : stack_capture) (type : string)
    (regex : RegExp) (regexes : list RegExp) (e : exception) :
  exemptionLists σ !! type = Some (regex :: regexes) ->
  stack_check σ stack type = Throw e ->
  shouldExemptMethod σ stack type = Returns false.
Proof.
  intros Hlist Hthrow. unfold shouldExemptMethod, no_checks.
  rewrite Hlist, Hthrow. reflexivity.
Qed.

(** A capture that raises, and a line whose match raises before the
    exempted library is reached. *)
Lemma shouldExemptMethod_swallows_exceptions_witness :
  shouldExemptMethod after_first (StackThrows prepare_failure) "f" = Returns false
  ∧ shouldExemptMethod after_first
      (StackLines [TextLine "Error"; BadLine TypeError;
                   TextLine "    at run (https://cdn.example.com/broken-lib.js:10:5)"])
      "f" = Returns false.
Proof.
  split.
  - apply (@shouldExemptMethod_swallows_exceptions literal_engine after_first
             (StackThrows prepare_failure) "f"
             (String.list_ascii_of_string "broken-lib.js") [] prepare_failure);
      reflexivity.
  - apply (@shouldExemptMethod_swallows_exceptions literal_engine after_first
             _ "f" (String.list_ascii_of_string "broken-lib.js") [] TypeError);
      reflexivity.
Defined.

(** ** A source that does not compile *)

(** C10. When a source of some feature does not compile,
    [initStringExemptionLists] raises the SyntaxError, and the state
    keeps what was done before: [debug] is set, the features before the
    failing one have their lists, the failing feature has the
    expressions of the sources before the bad one, and no other feature
    has been touched. *)
Theorem initStringExemptionLists_not_atomic `{RegExpEngine}
    (σ : module_state) (dbg : bool) (before after : list (string * list string))
    (type : string) (good rest : list string) (bad : string)
    (regexes : list RegExp) :
  NoDup (before.*1 ++ [type]) ->
  Forall (λ entry, is_Some (compile_all entry.2)) before ->
  compile_all good = Some regexes ->
  RegExp_new bad = None ->
  ∃ σ',
    initStringExemptionLists
      (InitArgs dbg (Some (before ++ (type, good ++ bad :: rest) :: after))) σ
    = (Throws SyntaxError, σ')
    ∧ debug σ' = dbg
    ∧ exemptionLists σ' !! type = Some regexes
    ∧ (∀ t sources, (t, sources) ∈ before ->
         exemptionLists σ' !! t = compile_all sources)
    ∧ (∀ t, t ∉ before.*1 -> t ≠ type ->
         exemptionLists σ' !! t = exemptionLists σ !! t).
Proof.
  intros Hnd Hbefore Hgood Hbad.
  apply NoDup_app in Hnd as (Hnd & Hfresh & _).
  unfold initStringExemptionLists, bind at 1, set_debug.
  cbn [arg_debug arg_stringExemptionLists].
  set (σ0 := {| exemptionLists := exemptionLists σ; debug := dbg |}).
  destruct (init_loop_completes before σ0 Hbefore) as [σ1 Hrun].
  destruct (init_loop_returns _ _ _ Hrun Hnd) as (Hdbg & Hnamed & Hother).
  destruct (compiled_prefix_until good bad rest regexes Hgood Hbad) as [Hp Hc].
  exists (with_list σ1 type regexes).
  rewrite for_of_app. unfold bind at 1. rewrite Hrun.
  cbn [for_of]. unfold bind at 1. rewrite init_feature_spec.
  unfold compile_result. rewrite Hc, Hp.
  split; [reflexivity |]. split; [exact Hdbg |]. split.
  - rewrite lookup_with_list. now rewrite decide_True.
  - split.
    + intros t sources Hin. rewrite lookup_with_list.
      rewrite decide_False; [now apply Hnamed |].
      intros <-. apply (Hfresh type); [| apply list_elem_of_here].
      apply list_elem_of_fmap. now exists (type, sources).
    + intros t Hnot Hne. rewrite lookup_with_list.
      rewrite decide_False by congruence. now apply Hother.
Qed.

Lemma initStringExemptionLists_not_atomic_witness :
  ∃ σ' : @module_state literal_engine,
    initStringExemptionLists failing_config initial_state = (Throws SyntaxError, σ')
    ∧ debug σ' = true
    ∧ exemptionLists σ' !! "g" = Some [String.list_ascii_of_string "legacy-player"]
    ∧ (∀ t sources, (t, sources) ∈ [("f", ["broken-lib\.js"])] ->
         exemptionLists σ' !! t = @compile_all literal_engine sources)
    ∧ (∀ t, t ∉ ["f"] -> t ≠ "g" ->
         exemptionLists σ' !! t = exemptionLists (@initial_state literal_engine) !! t).
Proof.
  apply (@initStringExemptionLists_not_atomic literal_engine initial_state true
           [("f", ["broken-lib\.js"])] [("h", ["other-lib"])] "g"
           ["legacy-player"] ["never-reached"] "(").
  - compute_done.
  - repeat constructor. cbn. eauto.
  - reflexivity.
  - reflexivity.
Defined.

(** ** The apply handler *)

Section ProxyFacts.
Context `{RegExpEngine} {World : Type}.
Variable postMessage : string -> debug_message -> World -> outcome unit * World.

Lemma post_debug_forwards_nothing (this : @DDGProxy World) isExempt ctx argumentsList w :
  forwarded (post_debug postMessage this isExempt ctx argumentsList w).2 = [].
Proof.
  unfold post_debug.
  destruct (ctx_debug_stack ctx); [| reflexivity].
  destruct (JSON_stringify argumentsList); [| reflexivity].
  now destruct (postMessage _ _ w).
Qed.

Lemma debug_statement_forwards_nothing (this : @DDGProxy World) σ isExempt ctx
    argumentsList w :
  forwarded (debug_statement postMessage this σ isExempt ctx argumentsList w).2 = [].
Proof.
  unfold debug_statement.
  destruct (debug σ); [apply post_debug_forwards_nothing | reflexivity].
Qed.

Lemma debug_statement_off (this : @DDGProxy World) σ isExempt ctx argumentsList w :
  debug σ = false ->
  debug_statement postMessage this σ isExempt ctx argumentsList w = (Returns tt, w, []).
Proof. intros Hoff. unfold debug_statement. now rewrite Hoff. Qed.
End ProxyFacts.

(** C6 (as amended). At an invocation of the handler where the debug
    statement is skipped or completes, an exempt call is forwarded to the
    native callable and to nothing else, a call that is not exempt is
    forwarded to the substitute and to nothing else, and the handler
    returns what the callable returned or raised. *)
Theorem outputHandler_routing `{RegExpEngine} {World : Type}
    (postMessage : string -> debug_message -> World -> outcome unit * World)
    (this : @DDGProxy World) (σ : module_state) (ctx : call_context)
    (thisArg : value) (argumentsList : list value) (w w1 : World)
    (isExempt : bool) (posted : list event) :
  shouldExemptMethod σ (ctx_stack ctx) (camelFeatureName this) = Returns isExempt ->
  debug_statement postMessage this σ isExempt ctx argumentsList w
  = (Returns tt, w1, posted) ->
  let '(result, w2, log) :=
    outputHandler postMessage this σ ctx thisArg argumentsList w in
  (debug σ = false -> w1 = w)
  ∧ (isExempt = true ->
       (result, w2) = _native this thisArg argumentsList w1
       ∧ forwarded log = [NativeCalled thisArg argumentsList])
  ∧ (isExempt = false ->
       (result, w2) = proxyObject_apply this thisArg argumentsList w1
       ∧ forwarded log = [SubstituteCalled thisArg argumentsList]).
Proof.
  intros Hexempt Hdebug. unfold outputHandler. rewrite Hexempt, Hdebug.
  pose proof (debug_statement_forwards_nothing postMessage this σ isExempt ctx
                argumentsList w) as Hquiet.
  rewrite Hdebug in Hquiet. cbn [snd] in Hquiet.
  assert (Hw : debug σ = false -> w1 = w).
  { intros Hoff. rewrite debug_statement_off in Hdebug by assumption. congruence. }
  destruct isExempt.
  - destruct (_native this thisArg argumentsList w1) as [result w2].
    split; [exact Hw |]. split; [| discriminate].
    intros _. split; [reflexivity |].
    unfold forwarded in *. now rewrite List.filter_app, Hquiet.
  - destruct (proxyObject_apply this thisArg argumentsList w1) as [result w2].
    split; [exact Hw |]. split; [discriminate |].
    intros _. split; [reflexivity |].
    unfold forwarded in *. now rewrite List.filter_app, Hquiet.
Qed.

Lemma outputHandler_routing_witness :
  let '(result, w2, log) :=
    @outputHandler literal_engine nat post_ok canvas_proxy canvas_state quiet_context
      VUndefined [VString "image/png"] 0%nat in
  (debug canvas_state = false -> 0%nat = 0%nat)
  ∧ (true = true ->
       (result, w2) = _native canvas_proxy VUndefined [VString "image/png"] 0%nat
       ∧ forwarded log = [NativeCalled VUndefined [VString "image/png"]])
  ∧ (true = false ->
       (result, w2) = proxyObject_apply canvas_proxy VUndefined [VString "image/png"] 0%nat
       ∧ forwarded log = [SubstituteCalled VUndefined [VString "image/png"]]).
Proof.
  apply (@outputHandler_routing literal_engine nat post_ok canvas_proxy canvas_state
           quiet_context VUndefined [VString "image/png"] 0%nat 0%nat true []);
    reflexivity.
Defined.

(** C6 as stated fails: with [debug] on and a BigInt among the
    arguments, building the debug record raises and the call is forwarded
    to neither callable. *)
Lemma outputHandler_debug_failure_forwards_nothing :
  ¬ (∀ (E : RegExpEngine) (World : Type)
       (postMessage : string -> debug_message -> World -> outcome unit * World)
       (this : @DDGProxy World) (σ : @module_state E) (ctx : call_context)
       (thisArg : value) (argumentsList : list value) (w : World),
       let '(result, w2, log) :=
         outputHandler postMessage this σ ctx thisArg argumentsList w in
       (shouldExemptMethod σ (ctx_stack ctx) (camelFeatureName this) = Returns true ->
        forwarded log = [NativeCalled thisArg argumentsList])
       ∧ (shouldExemptMethod σ (ctx_stack ctx) (camelFeatureName this) = Returns false ->
          forwarded log = [SubstituteCalled thisArg argumentsList])).
Proof.
  intros Hall.
  specialize (Hall literal_engine nat post_ok canvas_proxy debug_on quiet_context
                VUndefined [VBigInt 1] 0%nat).
  vm_compute in Hall. destruct Hall as [_ Hsub].
  specialize (Hsub eq_refl). discriminate Hsub.
Qed.

Example debug_record_failure :
  @outputHandler literal_engine nat post_ok canvas_proxy debug_on quiet_context
    VUndefined [VBigInt 1] 0%nat
  = (Throws TypeError, 0%nat, []).
Proof. reflexivity. Qed.

(** ** The property override *)

Lemma Object_defineProperty_installs (o o' : js_object) (name : string) (v : value) :
  Object_defineProperty o name v = Returns o' ->
  ∃ c, properties o' !! name = Some (AccessorProperty v c).
Proof.
  unfold Object_defineProperty.
  destruct (properties o !! name) as [p |].
  - destruct (slot_configurable p); [| discriminate].
    intros [= <-]. exists true. cbn. apply lookup_insert_eq.
  - destruct (extensible o); [| discriminate].
    intros [= <-]. exists false. cbn. apply lookup_insert_eq.
Qed.

Lemma Object_defineProperty_accepts (o : js_object) (name : string) (v : value) :
  can_define o name = true -> ∃ o', Object_defineProperty o name v = Returns o'.
Proof.
  unfold can_define, Object_defineProperty.
  destruct (properties o !! name) as [p |]; intros ->; eauto.
Qed.

(** C8 (as amended). [overrideProperty] always returns [origValue]; it
    leaves the object alone when [origValue] is [undefined]; for every
    other value, [null] included, it attempts to define the getter and
    swallows a failure of the definition: the object is the one the
    definition yields, or the unchanged one when the definition raises.
    Without [mozProxies] the getter is installed, and the property then
    reads [targetValue], where the property can be redefined, and the
    object is unchanged where it cannot. *)
Theorem overrideProperty_skips_only_undefined `{Platform}
    (name : string) (prop : override_prop) :
  (overrideProperty name prop).1 = origValue prop
  ∧ (origValue prop = VUndefined -> (overrideProperty name prop).2 = object prop)
  ∧ (origValue prop ≠ VUndefined ->
       (overrideProperty name prop).2
       = match defineProperty (object prop) name (targetValue prop) with
         | Returns o => o
         | Throws _ => object prop
         end
       ∧ (hasMozProxies = false ->
            (can_define (object prop) name = true ->
               get_property (overrideProperty name prop).2 name = targetValue prop
               ∧ ∃ c, properties (overrideProperty name prop).2 !! name
                      = Some (AccessorProperty (targetValue prop) c))
            ∧ (can_define (object prop) name = false ->
                 (overrideProperty name prop).2 = object prop))).
Proof.
  unfold overrideProperty.
  destruct (decide (origValue prop = VUndefined)) as [Hundef | Hdef].
  - rewrite bool_decide_eq_true_2 by assumption. cbn [negb].
    split; [reflexivity |]. split; [reflexivity |]. intros Hne. contradiction.
  - rewrite bool_decide_eq_false_2 by assumption. cbn [negb].
    split; [now destruct (defineProperty _ _ _) |].
    split; [intros Heq; contradiction |]. intros _.
    split; [now destruct (defineProperty _ _ _) |].
    intros Hchrome. unfold defineProperty. rewrite Hchrome. split.
    + intros Hcan.
      destruct (Object_defineProperty_accepts _ name (targetValue prop) Hcan) as [o' Ho'].
      rewrite Ho'. cbn [snd].
      destruct (Object_defineProperty_installs _ _ _ _ Ho') as [c Hc].
      split; [| eauto]. unfold get_property. now rewrite Hc.
    + unfold can_define, Object_defineProperty.
      destruct (properties (object prop) !! name) as [p |]; now intros ->.
Qed.

(** A configurable property whose value is [null] is overridden; a
    property that is not configurable stays as it was. *)
Lemma overrideProperty_skips_only_undefined_witness :
  ((@overrideProperty chrome_platform "availTop" availTop_prop).1 = VNull
   ∧ get_property (@overrideProperty chrome_platform "availTop" availTop_prop).2 "availTop"
     = VNumber (Num 0))
  ∧ (@overrideProperty chrome_platform "availTop" frozen_prop).2 = frozen_object.
Proof.
  split.
  - destruct (@overrideProperty_skips_only_undefined chrome_platform "availTop"
                availTop_prop) as (Hret & _ & Hinstall).
    split; [exact Hret |].
    destruct Hinstall as [_ Hstandard]; [discriminate |].
    destruct (Hstandard eq_refl) as [Hcan _].
    now destruct (Hcan eq_refl).
  - destruct (@overrideProperty_skips_only_undefined chrome_platform "availTop"
                frozen_prop) as (_ & _ & Hinstall).
    destruct Hinstall as [_ Hstandard]; [discriminate |].
    destruct (Hstandard eq_refl) as [_ Hrefused].
    now apply Hrefused.
Defined.

(** C8 as stated fails: on a property that is not configurable the
    definition raises, the failure is swallowed, and no getter is
    installed although [origValue] is not [undefined]. *)
Lemma overrideProperty_getter_not_always_installed :
  ¬ (∀ (P : Platform) (name : string) (prop : override_prop),
       origValue prop ≠ VUndefined ->
       ∃ c, properties (overrideProperty name prop).2 !! name
            = Some (AccessorProperty (targetValue prop) c)).
Proof.
  intros Hall.
  destruct (Hall chrome_platform "availTop" frozen_prop) as [c Hc]; [discriminate |].
  vm_compute in Hc. discriminate Hc.
Qed.

Example overrideProperty_undefined :
  @overrideProperty chrome_platform "x"
    {| object := screen_object; origValue := VUndefined; targetValue := VNumber (Num 5) |}
  = (VUndefined, screen_object).
Proof. reflexivity. Qed.

(** ** The keyed digest *)

Lemma hex_digit_lower (d : Z) : is_lower_hex (hex_digit (d mod 16)) = true.
Proof.
  pose proof (Z.mod_pos_bound d 16 ltac:(lia)) as Hd.
  unfold hex_digit. remember (Z.to_nat (d mod 16)) as n eqn:Hn.
  assert (Hlt : (n < 16)%nat) by lia. clear Hn Hd.
  do 16 (destruct n as [| n]; [reflexivity |]). lia.
Qed.

Lemma hex_word_spec (w : Z) :
  length (hex_word w) = 8%nat ∧ Forall (λ c, is_lower_hex c = true) (hex_word w).
Proof.
  unfold hex_word. split; [reflexivity |].
  rewrite Forall_fmap. apply Forall_forall. intros i _. apply hex_digit_lower.
Qed.

Lemma hex_words_spec (ws : list Z) :
  length (concat (hex_word <$> ws)) = (8 * length ws)%nat
  ∧ Forall (λ c, is_lower_hex c = true) (concat (hex_word <$> ws)).
Proof.
  induction ws as [| w ws [IHlen IHall]].
  - split; [reflexivity | constructor].
  - destruct (hex_word_spec w) as [Hlen Hall].
    cbn [fmap list_fmap concat]. split.
    + rewrite length_app. cbn [length]. fold (hex_word <$> ws). lia.
    + apply Forall_app. split; assumption.
Qed.

Lemma string_of_list_ascii_length (l : list ascii) :
  String.length (String.string_of_list_ascii l) = length l.
Proof. induction l; cbn; congruence. Qed.

(** C7. Two calls of [getDataKeySync] on the same session key, domain key
    and input return the same string, and that string consists of 64
    lowercase hexadecimal digits. *)
Theorem getDataKeySync_deterministic_hex `{KeyedHash}
    (sessionKey domainKey : string) (inputData : number) :
  let first_call := getDataKeySync sessionKey domainKey inputData in
  let second_call := getDataKeySync sessionKey domainKey inputData in
  first_call = second_call
  ∧ String.length first_call = 64%nat
  ∧ Forall (λ c, is_lower_hex c = true) (String.list_ascii_of_string first_call).
Proof.
  cbn zeta. split; [reflexivity |].
  unfold getDataKeySync, hex_fromBits.
  destruct (hex_words_spec (vec_to_list
              (hmac_sha256 (utf8String_toBits (sessionKey +:+ domainKey)) inputData)))
    as [Hlen Hall].
  rewrite length_vec_to_list in Hlen. split.
  - rewrite string_of_list_ascii_length. exact Hlen.
  - rewrite String.list_ascii_of_string_of_list_ascii. exact Hall.
Qed.

(** * Further properties *)

(** ** Answers of the exemption lists *)

Section ExemptionAnswers.
Context `{RegExpEngine}.

Lemma any_test_true (regexes : list RegExp) (url : string) :
  any_test regexes url = true
  ↔ ∃ regex, regex ∈ regexes ∧ RegExp_test regex url = true.
Proof.
  induction regexes as [| regex rest IH]; cbn [any_test].
  - split; [discriminate |]. intros (r & Hin & _). now apply elem_of_nil in Hin.
  - destruct (RegExp_test regex url) eqn:Htest.
    + split; [| reflexivity]. intros _. exists regex. split; [left | assumption].
    + rewrite IH. split.
      * intros (r & Hin & Hr). exists r. split; [now right | assumption].
      * intros (r & Hin & Hr). apply elem_of_cons in Hin as [-> | Hin].
        -- congruence.
        -- now exists r.
Qed.

Lemma any_test_Permutation (regexes regexes' : list RegExp) (url : string) :
  regexes ≡ₚ regexes' -> any_test regexes url = any_test regexes' url.
Proof.
  intros Hperm. apply eq_true_iff_eq. rewrite !any_test_true.
  split; intros (r & Hin & Hr); exists r; split; try assumption.
  - now rewrite <- Hperm.
  - now rewrite Hperm.
Qed.

(** The loop over the lines: the paths set aside in [errorFiles] are
    paths that no expression matches, so skipping them loses nothing. *)
Lemma scan_lines_answer σ type regexes lines errorFiles :
  exemptionLists σ !! type = Some regexes ->
  (∀ path, path ∈ errorFiles -> any_test regexes path = false) ->
  scan_lines σ type lines errorFiles
  = if existsb (line_exempt regexes) (leading_text lines) then Return true
    else match lines !! length (leading_text lines) with
         | Some (BadLine e) => Throw e
         | _ => Normal
         end.
Proof.
  intros Hlist. revert errorFiles.
  induction lines as [| [line | e] rest IH]; intros errorFiles Hseen;
    cbn [scan_lines leading_text existsb length].
  - reflexivity.
  - unfold line_exempt at 1. unfold shouldExemptUrl. rewrite Hlist.
    destruct (lineTest_match line) as [path |]; cbn [orb lookup list_lookup].
    + destruct (decide (path ∈ errorFiles)) as [Hin | Hnew].
      * rewrite (Hseen _ Hin). cbn [orb]. now apply IH.
      * destruct (any_test regexes path) eqn:Htest; [reflexivity |].
        cbn [orb]. apply IH. intros p Hp.
        apply elem_of_union in Hp as [Hp | Hp]; [| now apply Hseen].
        apply elem_of_singleton in Hp. now subst p.
    + now apply IH.
  - reflexivity.
Qed.
End ExemptionAnswers.

(** X1. For a configured feature [shouldExemptUrl] returns, and it
    returns [true] exactly when one of the expressions of the feature
    matches the URL; the order of the expressions does not matter. *)
Theorem shouldExemptUrl_configured `{RegExpEngine} (σ : module_state)
    (type url : string) (regexes regexes' : list RegExp) :
  exemptionLists σ !! type = Some regexes ->
  ∃ b, shouldExemptUrl σ type url = Returns b
       ∧ (b = true ↔ ∃ regex, regex ∈ regexes ∧ RegExp_test regex url = true)
       ∧ (regexes ≡ₚ regexes' ->
          shouldExemptUrl (with_list σ type regexes') type url = Returns b).
Proof.
  intros Hlist. exists (any_test regexes url). unfold shouldExemptUrl.
  rewrite Hlist. split; [reflexivity |]. split; [apply any_test_true |].
  intros Hperm. rewrite lookup_with_list, decide_True by reflexivity.
  now rewrite (any_test_Permutation _ _ _ Hperm).
Qed.

Lemma shouldExemptUrl_configured_witness :
  ∃ b, shouldExemptUrl after_first "f" "https://cdn.example.com/broken-lib.js"
       = Returns b
       ∧ (b = true ↔ ∃ regex, regex ∈ [String.list_ascii_of_string "broken-lib.js"]
                      ∧ @RegExp_test literal_engine regex
                          "https://cdn.example.com/broken-lib.js" = true)
       ∧ ([String.list_ascii_of_string "broken-lib.js"]
          ≡ₚ [String.list_ascii_of_string "broken-lib.js"] ->
          shouldExemptUrl
            (with_list after_first "f" [String.list_ascii_of_string "broken-lib.js"])
            "f" "https://cdn.example.com/broken-lib.js" = Returns b).
Proof.
  apply (@shouldExemptUrl_configured literal_engine after_first "f").
  reflexivity.
Defined.

(** X2. For a feature with at least one expression,
    [shouldExemptMethod] answers [true] exactly when one of the text
    lines before the first line whose match raises names a path that an
    expression matches: setting aside the paths already seen changes
    nothing, and a raising line only hides the lines after it. *)
Theorem shouldExemptMethod_answer `{RegExpEngine} (σ : module_state)
    (type : string) (regex : RegExp) (regexes : list RegExp)
    (lines : list stack_line) :
  exemptionLists σ !! type = Some (regex :: regexes) ->
  shouldExemptMethod σ (StackLines lines) type
  = Returns (existsb (line_exempt (regex :: regexes)) (leading_text lines)).
Proof.
  intros Hlist. unfold shouldExemptMethod, no_checks, stack_check.
  rewrite Hlist. cbn [length bool_decide].
  rewrite bool_decide_eq_false_2 by discriminate.
  rewrite (scan_lines_answer σ type (regex :: regexes)); [| assumption |].
  - destruct (existsb _ _); [reflexivity |].
    destruct (lines !! _) as [[line | e] |]; reflexivity.
  - intros path Hin. now apply elem_of_empty in Hin.
Qed.

Lemma shouldExemptMethod_answer_witness :
  shouldExemptMethod after_first (StackLines repeated_frames) "f"
  = Returns (existsb (@line_exempt literal_engine
                        [String.list_ascii_of_string "broken-lib.js"])
               (leading_text repeated_frames)).
Proof.
  apply (@shouldExemptMethod_answer literal_engine after_first "f"
           (String.list_ascii_of_string "broken-lib.js") [] repeated_frames).
  reflexivity.
Defined.

Lemma leading_text_elem (lines : list stack_line) (line : string) :
  line ∈ leading_text lines -> TextLine line ∈ lines.
Proof.
  induction lines as [| [l | e] rest IH]; cbn [leading_text].
  - intros Hin. now apply elem_of_nil in Hin.
  - intros Hin. apply elem_of_cons in Hin as [-> | Hin]; [left | right; auto].
  - intros Hin. now apply elem_of_nil in Hin.
Qed.

Lemma shouldExemptMethod_true_inv `{RegExpEngine} (σ : module_state)
    (stack : stack_capture) (type : string) :
  shouldExemptMethod σ stack type = Returns true ->
  ∃ regexes lines line path,
    exemptionLists σ !! type = Some regexes
    ∧ stack = StackLines lines
    ∧ TextLine line ∈ lines
    ∧ lineTest_match line = Some path
    ∧ any_test regexes path = true.
Proof.
  unfold shouldExemptMethod, no_checks, stack_check.
  destruct (exemptionLists σ !! type) as [regexes |] eqn:Hlist; [| discriminate].
  destruct (bool_decide (length regexes = 0%nat)); [discriminate |].
  destruct stack as [e | | lines]; try discriminate.
  rewrite (scan_lines_answer σ type regexes lines ∅ Hlist);
    [| intros path Hin; now apply elem_of_empty in Hin].
  destruct (existsb (line_exempt regexes) (leading_text lines)) eqn:Hex.
  - intros _. apply existsb_exists in Hex as (line & Hin & Hline).
    unfold line_exempt in Hline.
    destruct (lineTest_match line) as [path |] eqn:Hmatch; [| discriminate].
    exists regexes, lines, line, path. repeat split; try assumption.
    apply leading_text_elem. now apply list_elem_of_In.
  - destruct (lines !! _) as [[line | e] |]; discriminate.
Qed.

(** X3. [shouldExemptMethod] never raises, whatever the configuration, the
    stack and the feature; and it answers [true] only when the feature is
    configured and a text line of the stack names a path that one of its
    expressions matches. *)
Theorem shouldExemptMethod_never_raises `{RegExpEngine} (σ : module_state)
    (stack : stack_capture) (type : string) :
  ∃ b, shouldExemptMethod σ stack type = Returns b
       ∧ (b = true ->
          ∃ regexes lines line path,
            exemptionLists σ !! type = Some regexes
            ∧ stack = StackLines lines
            ∧ TextLine line ∈ lines
            ∧ lineTest_match line = Some path
            ∧ any_test regexes path = true).
Proof.
  destruct (shouldExemptMethod_returns σ stack type) as [b Hb].
  exists b. split; [exact Hb |]. intros ->. now apply shouldExemptMethod_true_inv.
Qed.

Lemma shouldExemptMethod_never_raises_witness :
  ∃ b, shouldExemptMethod after_first broken_lib_stack "f" = Returns b
       ∧ (b = true ->
          ∃ regexes lines line path,
            exemptionLists after_first !! "f" = Some regexes
            ∧ broken_lib_stack = StackLines lines
            ∧ TextLine line ∈ lines
            ∧ lineTest_match line = Some path
            ∧ any_test regexes path = true).
Proof.
  apply (@shouldExemptMethod_never_raises literal_engine after_first broken_lib_stack "f").
Defined.

(** ** The stack line pattern *)

Local Open Scope char_scope.

Lemma skip_digits_split (l : list ascii) :
  ∃ ds, l = ds ++ skip_digits l ∧ Forall (λ c, is_digit c = true) ds.
Proof.
  induction l as [| c rest (ds & Heq & Hds)]; cbn [skip_digits].
  - now exists [].
  - destruct (is_digit c) eqn:Hc.
    + exists (c :: ds). split; [cbn; congruence | now constructor].
    + now exists [].
Qed.

Lemma digits1_split (l rest : list ascii) :
  digits1 l = Some rest ->
  ∃ ds, l = ds ++ rest ∧ ds ≠ [] ∧ Forall (λ c, is_digit c = true) ds.
Proof.
  destruct l as [| c l]; cbn [digits1]; [discriminate |].
  destruct (is_digit c) eqn:Hc; [| discriminate]. intros [= <-].
  destruct (skip_digits_split l) as (ds & Heq & Hds).
  exists (c :: ds). split; [cbn; congruence |]. split; [discriminate | now constructor].
Qed.

Lemma location_suffix_split (l : list ascii) :
  location_suffix l = true ->
  ∃ line column rest,
    l = ":" :: line ++ ":" :: column ++ rest
    ∧ line ≠ [] ∧ Forall (λ c, is_digit c = true) line
    ∧ column ≠ [] ∧ Forall (λ c, is_digit c = true) column.
Proof.
  unfold location_suffix.
  destruct l as [| c l1]; [discriminate |].
  destruct (decide (c = ":")) as [-> | Hne].
  - destruct (digits1 l1) as [r1 |] eqn:H1; [| discriminate].
    destruct (digits1_split _ _ H1) as (line & -> & Hline & Hdl).
    destruct r1 as [| c2 l2]; [discriminate |].
    destruct (decide (c2 = ":")) as [-> | Hne2].
    + intros Hsome. apply bool_decide_eq_true in Hsome as [r2 H2].
      destruct (digits1_split _ _ H2) as (column & -> & Hcol & Hdc).
      now exists line, column, r2.
    + intros Hf. exfalso. revert Hf.
      destruct c2 as [[] [] [] [] [] [] [] []]; try discriminate. now destruct Hne2.
  - intros Hf. exfalso. revert Hf.
    destruct c as [[] [] [] [] [] [] [] []]; try discriminate. now destruct Hne.
Qed.

Lemma path_rest_split (l more : list ascii) :
  path_rest l = Some more ->
  ∃ suffix, l = more ++ suffix ∧ more ≠ [] ∧ (")" ∉ more)
            ∧ location_suffix suffix = true.
Proof.
  revert more. induction l as [| c rest IH]; intros more; cbn [path_rest].
  - discriminate.
  - destruct (decide (c = ")")) as [-> | Hc]; [discriminate |].
    destruct (path_rest rest) as [more' |].
    + intros [= <-]. destruct (IH _ eq_refl) as (suffix & -> & _ & Hno & Hsuf).
      exists suffix. split; [reflexivity |]. split; [discriminate |].
      split; [| assumption]. rewrite not_elem_of_cons. split; congruence.
    + destruct (location_suffix rest) eqn:Hsuf; [| discriminate].
      intros [= <-]. exists rest. split; [reflexivity |]. split; [discriminate |].
      split; [| assumption]. rewrite not_elem_of_cons. split; [congruence |].
      apply not_elem_of_nil.
Qed.

Lemma match_here_split (l path : list ascii) :
  match_here l = Some path ->
  ∃ opening more suffix,
    l = opening ++ path ++ suffix
    ∧ (opening = [] ∨ opening = ["("])
    ∧ path = "h" :: "t" :: "t" :: "p" :: more
    ∧ more ≠ [] ∧ (")" ∉ more) ∧ location_suffix suffix = true.
Proof.
  unfold match_here.
  assert (Hcore : ∀ l1, match l1 with
                        | "h" :: "t" :: "t" :: "p" :: l2 =>
                            (λ more, "h" :: "t" :: "t" :: "p" :: more) <$> path_rest l2
                        | _ => None
                        end = Some path ->
                        ∃ more suffix, l1 = path ++ suffix
                          ∧ path = "h" :: "t" :: "t" :: "p" :: more
                          ∧ more ≠ [] ∧ (")" ∉ more) ∧ location_suffix suffix = true).
  { intros l1 Hm.
    destruct l1 as [| c1 l1]; [discriminate Hm |].
    destruct (decide (c1 = "h")) as [-> | Hn];
      [| exfalso; revert Hm; destruct c1 as [[] [] [] [] [] [] [] []];
         try discriminate; now destruct Hn].
    destruct l1 as [| c2 l1]; [discriminate Hm |].
    destruct (decide (c2 = "t")) as [-> | Hn];
      [| exfalso; revert Hm; destruct c2 as [[] [] [] [] [] [] [] []];
         try discriminate; now destruct Hn].
    destruct l1 as [| c3 l1]; [discriminate Hm |].
    destruct (decide (c3 = "t")) as [-> | Hn];
      [| exfalso; revert Hm; destruct c3 as [[] [] [] [] [] [] [] []];
         try discriminate; now destruct Hn].
    destruct l1 as [| c4 l2]; [discriminate Hm |].
    destruct (decide (c4 = "p")) as [-> | Hn];
      [| exfalso; revert Hm; destruct c4 as [[] [] [] [] [] [] [] []];
         try discriminate; now destruct Hn].
    destruct (path_rest l2) as [more |] eqn:Hrest; [| discriminate Hm].
    cbn in Hm. injection Hm as <-.
    destruct (path_rest_split _ _ Hrest) as (suffix & -> & Hne & Hno & Hsuf).
    now exists more, suffix. }
  destruct l as [| c rest].
  - discriminate.
  - destruct (decide (c = "(")) as [-> | Hc].
    + intros Hm. destruct (Hcore rest Hm) as (more & suffix & -> & Hrest).
      exists ["("], more, suffix. split; [reflexivity |]. split; [now right | exact Hrest].
    + intros Hm.
      assert (Hm' : match c :: rest with
                    | "h" :: "t" :: "t" :: "p" :: l2 =>
                        (λ more, "h" :: "t" :: "t" :: "p" :: more) <$> path_rest l2
                    | _ => None
                    end = Some path).
      { revert Hm. destruct c as [[] [] [] [] [] [] [] []]; try exact id.
        now destruct Hc. }
      destruct (Hcore (c :: rest) Hm') as (more & suffix & Heq & Hrest).
      exists [], more, suffix. split; [exact Heq |]. split; [now left | exact Hrest].
Qed.

Lemma match_from_split (l path : list ascii) :
  match_from l = Some path ->
  ∃ before more suffix,
    l = before ++ path ++ suffix
    ∧ path = "h" :: "t" :: "t" :: "p" :: more
    ∧ more ≠ [] ∧ (")" ∉ more) ∧ location_suffix suffix = true.
Proof.
  induction l as [| c rest IH]; cbn [match_from].
  - discriminate.
  - destruct (match_here (c :: rest)) as [p |] eqn:Hhere.
    + intros [= <-].
      destruct (match_here_split _ _ Hhere) as (opening & more & suffix & Heq & _ & Hrest).
      now exists opening, more, suffix.
    + intros Hm. destruct (IH Hm) as (before & more & suffix & -> & Hrest).
      now exists (c :: before), more, suffix.
Qed.

Local Close Scope char_scope.

Lemma starts_with_app (needle rest : list ascii) :
  starts_with needle (needle ++ rest) = true.
Proof.
  induction needle as [| c needle IH]; [reflexivity |].
  cbn [app starts_with]. now rewrite bool_decide_eq_true_2, IH.
Qed.

Lemma contains_app (needle before rest : list ascii) :
  contains needle (before ++ needle ++ rest) = true.
Proof.
  induction before as [| c before IH].
  - cbn [app]. destruct (needle ++ rest) eqn:Heq; cbn [contains];
      rewrite <- ?Heq, starts_with_app; reflexivity.
  - cbn [app contains]. rewrite IH. apply orb_true_r.
Qed.

Lemma lineTest_match_contains_http (line path : string) :
  lineTest_match line = Some path ->
  contains (String.list_ascii_of_string "http") (String.list_ascii_of_string line) = true.
Proof.
  unfold lineTest_match.
  destruct (match_from (String.list_ascii_of_string line)) as [p |] eqn:Hm;
    [| discriminate].
  intros _. destruct (match_from_split _ _ Hm) as (before & more & suffix & -> & -> & _).
  apply (contains_app (String.list_ascii_of_string "http") before (more ++ suffix)).
Qed.

(** X4. A path taken from a stack line starts with [http], goes on with
    at least one character, holds no closing parenthesis, and is followed
    in the line by a colon, a line number, a colon and a column
    number. *)
Theorem lineTest_match_shape (line path : string) :
  lineTest_match line = Some path ->
  ∃ before more lineno column rest,
    String.list_ascii_of_string line
    = before ++ String.list_ascii_of_string path
        ++ ":"%char :: lineno ++ ":"%char :: column ++ rest
    ∧ String.list_ascii_of_string path = String.list_ascii_of_string "http" ++ more
    ∧ more ≠ [] ∧ (")"%char ∉ more)
    ∧ lineno ≠ [] ∧ Forall (λ c, is_digit c = true) lineno
    ∧ column ≠ [] ∧ Forall (λ c, is_digit c = true) column.
Proof.
  unfold lineTest_match.
  destruct (match_from (String.list_ascii_of_string line)) as [p |] eqn:Hm;
    [| discriminate].
  cbn. intros [= <-]. rewrite String.list_ascii_of_string_of_list_ascii.
  destruct (match_from_split _ _ Hm) as (before & more & suffix & Hl & -> & Hne & Hno & Hsuf).
  destruct (location_suffix_split _ Hsuf)
    as (lineno & column & rest & -> & Hl1 & Hd1 & Hl2 & Hd2).
  exists before, more, lineno, column, rest. rewrite Hl. repeat split; assumption.
Qed.

Lemma lineTest_match_shape_witness :
  ∃ before more lineno column rest,
    String.list_ascii_of_string "    at run (https://cdn.example.com/broken-lib.js:10:5)"
    = before ++ String.list_ascii_of_string "https://cdn.example.com/broken-lib.js"
        ++ ":"%char :: lineno ++ ":"%char :: column ++ rest
    ∧ String.list_ascii_of_string "https://cdn.example.com/broken-lib.js"
      = String.list_ascii_of_string "http" ++ more
    ∧ more ≠ [] ∧ (")"%char ∉ more)
    ∧ lineno ≠ [] ∧ Forall (λ c, is_digit c = true) lineno
    ∧ column ≠ [] ∧ Forall (λ c, is_digit c = true) column.
Proof.
  apply (lineTest_match_shape
           "    at run (https://cdn.example.com/broken-lib.js:10:5)"
           "https://cdn.example.com/broken-lib.js").
  reflexivity.
Defined.

(** X5. A stack none of whose text lines contains [http] exempts
    nothing, whatever the configuration: frames of other schemes are not
    looked up. *)
Theorem shouldExemptMethod_ignores_other_schemes `{RegExpEngine}
    (σ : module_state) (type : string) (lines : list stack_line) :
  (∀ line, TextLine line ∈ lines ->
     contains (String.list_ascii_of_string "http") (String.list_ascii_of_string line)
     = false) ->
  shouldExemptMethod σ (StackLines lines) type = Returns false.
Proof.
  intros Hno.
  destruct (shouldExemptMethod_returns σ (StackLines lines) type) as [b Hb].
  rewrite Hb. destruct b; [| reflexivity]. exfalso.
  destruct (shouldExemptMethod_true_inv _ _ _ Hb)
    as (regexes & lines' & line & path & _ & [= <-] & Hin & Hm & _).
  apply lineTest_match_contains_http in Hm. rewrite (Hno _ Hin) in Hm. discriminate.
Qed.

Lemma shouldExemptMethod_ignores_other_schemes_witness :
  shouldExemptMethod after_first (StackLines extension_frames) "f" = Returns false.
Proof.
  apply (@shouldExemptMethod_ignores_other_schemes literal_engine after_first "f"
           extension_frames).
  intros line Hin. unfold extension_frames in Hin.
  repeat (apply elem_of_cons in Hin as [Heq | Hin];
          [injection Heq as ->; reflexivity |]).
  now apply elem_of_nil in Hin.
Defined.

(** ** Feature names and feature settings *)

Lemma toUpperCase_dash (c : ascii) : toUpperCase c = "-"%char -> c = "-"%char.
Proof. destruct c as [[] [] [] [] [] [] [] []]; vm_compute; congruence. Qed.

Lemma camelcase_chars_fixed (l : list ascii) :
  "-"%char ∉ l -> camelcase_chars l = l.
Proof.
  induction l as [| x tl IH]; [reflexivity |].
  rewrite not_elem_of_cons. intros [Hx Htl]. cbn [camelcase_chars].
  rewrite decide_False by congruence. now rewrite IH.
Qed.

Lemma camelcase_chars_length (l : list ascii) :
  (length (camelcase_chars l) <= length l)%nat.
Proof.
  induction l as [l IH] using (induction_ltof1 _ (@length ascii)).
  unfold ltof in IH.
  destruct l as [| x tl]; [reflexivity |]. cbn [camelcase_chars].
  destruct (decide (x = "-"%char)).
  - destruct tl as [| letter rest]; [reflexivity |].
    destruct (is_line_terminator letter); cbn [length].
    + specialize (IH (letter :: rest) ltac:(cbn; lia)). cbn [length] in IH. lia.
    + specialize (IH rest ltac:(cbn; lia)). lia.
  - specialize (IH tl ltac:(cbn; lia)). cbn [length]. lia.
Qed.

Lemma camelcase_chars_dash_case (l : list ascii) :
  dash_case l = true -> "-"%char ∉ camelcase_chars l.
Proof.
  induction l as [l IH] using (induction_ltof1 _ (@length ascii)).
  unfold ltof in IH.
  destruct l as [| x tl]; [intros _; apply not_elem_of_nil |].
  cbn [dash_case camelcase_chars].
  destruct (decide (x = "-"%char)) as [-> | Hx].
  - destruct tl as [| letter rest]; [discriminate |].
    rewrite !andb_true_iff, !negb_true_iff.
    intros [[Hletter Hterm] Hrest]. rewrite Hterm.
    apply bool_decide_eq_false in Hletter.
    rewrite not_elem_of_cons. split.
    + intros Heq. symmetry in Heq. now apply toUpperCase_dash in Heq.
    + apply IH; [cbn; lia | assumption].
  - intros Htl. rewrite not_elem_of_cons. split; [congruence |].
    apply IH; [cbn; lia | assumption].
Qed.

Lemma camelcase_idempotent_dash_case (name : string) :
  dash_case (String.list_ascii_of_string name) = true ->
  camelcase (camelcase name) = camelcase name.
Proof.
  intros Hdash. unfold camelcase at 1 3.
  unfold camelcase. rewrite String.list_ascii_of_string_of_list_ascii.
  now rewrite (camelcase_chars_fixed _ (camelcase_chars_dash_case _ Hdash)).
Qed.

(** X6. On a name of characters below 128 [camelcase] never returns a
    longer name; and it returns a name without a dash, whatever its
    characters, as it is. *)
Theorem camelcase_keeps_dash_free_names (name : string) :
  (is_ascii_text (String.list_ascii_of_string name) = true ->
   (String.length (camelcase name) <= String.length name)%nat)
  ∧ ("-"%char ∉ String.list_ascii_of_string name -> camelcase name = name).
Proof.
  unfold camelcase. split.
  - intros _. rewrite string_of_list_ascii_length.
    rewrite <- (String.string_of_list_ascii_of_string name) at 2.
    rewrite string_of_list_ascii_length. apply camelcase_chars_length.
  - intros Hno. rewrite camelcase_chars_fixed by assumption.
    apply String.string_of_list_ascii_of_string.
Qed.

Lemma camelcase_keeps_dash_free_names_witness :
  (String.length (camelcase "fingerprinting-screen-size")
   <= String.length "fingerprinting-screen-size")%nat
  ∧ camelcase "fingerprintingCanvas" = "fingerprintingCanvas".
Proof.
  split.
  - apply (proj1 (camelcase_keeps_dash_free_names "fingerprinting-screen-size")).
    reflexivity.
  - apply (proj2 (camelcase_keeps_dash_free_names "fingerprintingCanvas")).
    compute_done.
Defined.

(** X7. On a dash-case name, where every dash is followed by a character
    other than a dash or a line terminator, the result of [camelcase]
    holds no dash, and applying [camelcase] again changes nothing. *)
Theorem camelcase_removes_dashes (name : string) :
  dash_case (String.list_ascii_of_string name) = true ->
  ("-"%char ∉ String.list_ascii_of_string (camelcase name))
  ∧ camelcase (camelcase name) = camelcase name.
Proof.
  intros Hdash. split; [| now apply camelcase_idempotent_dash_case].
  unfold camelcase. rewrite String.list_ascii_of_string_of_list_ascii.
  now apply camelcase_chars_dash_case.
Qed.

Lemma camelcase_removes_dashes_witness :
  ("-"%char ∉ String.list_ascii_of_string (camelcase "fingerprinting-screen-size"))
  ∧ camelcase (camelcase "fingerprinting-screen-size")
    = camelcase "fingerprinting-screen-size".
Proof. apply (camelcase_removes_dashes "fingerprinting-screen-size"). reflexivity. Defined.




Example getFeatureSetting_values :
  getFeatureSettingEnabled "fingerprinting-canvas" canvas_args "webGl" = Returns true
  ∧ getFeatureSetting "fingerprinting-canvas" canvas_args "audio"
    = Returns (Stored VUndefined)
  ∧ getFeatureSetting "fingerprinting-audio" canvas_args "webGl"
    = Returns (Stored VUndefined)
  ∧ getFeatureSetting "constructor" (Some {| featureSettings := Some ∅ |}) "name"
    = Returns FromPrototype
  ∧ getFeatureSettingEnabled "constructor" (Some {| featureSettings := Some ∅ |}) "name"
    = Returns false
  ∧ getFeatureSetting "fingerprinting-canvas" canvas_args "toString"
    = Returns FromPrototype
  ∧ getFeatureSetting "fingerprinting-canvas" (Some {| featureSettings := None |}) "webGl"
    = Returns (Stored VUndefined)
  ∧ getFeatureSetting "fingerprinting-canvas" None "webGl" = Throws TypeError.
Proof. repeat split. Qed.

(** ** Broken sites *)

(** X9. When [isFeatureBroken] returns, its result is truthy exactly when
    the site is broken, or allowlisted, or the feature is not among the
    enabled features; it raises only when both flags are falsy and
    [enabledFeatures] is missing, so that a broken or allowlisted site is
    answered without looking at [enabledFeatures]. *)
Theorem isFeatureBroken_answer (s : site) (feature : string) :
  match isFeatureBroken s feature with
  | Returns v =>
      truthy v = true
      ↔ truthy (isBroken s) = true ∨ truthy (allowlisted s) = true
        ∨ ∃ array, enabledFeatures s = Some array ∧ VString feature ∉ array
  | Throws e =>
      e = TypeError ∧ truthy (isBroken s) = false ∧ truthy (allowlisted s) = false
      ∧ enabledFeatures s = None
  end.
Proof.
  unfold isFeatureBroken.
  destruct (truthy (isBroken s)) eqn:Hb; [rewrite Hb; tauto |].
  destruct (truthy (allowlisted s)) eqn:Ha; [rewrite Ha; tauto |].
  destruct (enabledFeatures s) as [array |]; [| tauto].
  unfold Array_includes. cbn [truthy]. rewrite negb_true_iff, bool_decide_eq_false.
  split.
  - intros Hnot. right. right. now exists array.
  - intros [Hf | [Hf | (array' & [= <-] & Hnot)]]; [discriminate.. | assumption].
Qed.

(** ** The bits of the shift register *)

Lemma wrap32_testbit (z k : Z) :
  0 <= k < 32 -> Z.testbit (wrap32 z) k = Z.testbit z k.
Proof.
  intros Hk.
  assert (Hmod : wrap32 z mod 2 ^ 32 = z mod 2 ^ 32).
  { unfold wrap32.
    pose proof (Z.div_mod (z + 2 ^ 31) (2 ^ 32) ltac:(lia)) as Hd.
    replace ((z + 2 ^ 31) mod 2 ^ 32 - 2 ^ 31)
      with (z + (- ((z + 2 ^ 31) / 2 ^ 32)) * 2 ^ 32) by lia.
    apply Z.mod_add. lia. }
  rewrite <- (Z.mod_pow2_bits_low (wrap32 z) 32 k) by lia.
  rewrite Hmod. apply Z.mod_pow2_bits_low. lia.
Qed.

Lemma mask32_testbit (k : Z) : 0 <= k -> Z.testbit mask32 k = (30 <=? k).
Proof.
  intros Hk. change mask32 with (Z.shiftl (-1) 30).
  rewrite Z.shiftl_spec by assumption.
  destruct (Z.leb_spec 30 k).
  - apply Z.bits_m1. lia.
  - apply Z.testbit_neg_r. lia.
Qed.

Lemma int32_testbit_sign (x k : Z) :
  - 2 ^ 31 <= x < 2 ^ 31 -> 31 <= k -> Z.testbit x k = Z.testbit x 31.
Proof.
  intros Hx Hk. apply int32_sign_bits in Hx.
  replace k with ((k - 31) + 31) by lia.
  rewrite <- (Z.shiftr_spec x 31 (k - 31)) by lia.
  replace 31 with (0 + 31) at 3 by lia.
  rewrite <- (Z.shiftr_spec x 31 0) by lia.
  destruct Hx as [-> | ->].
  - now rewrite !Z.bits_0.
  - rewrite !Z.bits_m1 by lia. reflexivity.
Qed.

Lemma lfsr_step_low_bits (x k : Z) :
  0 <= k < 30 -> Z.testbit (lfsr_step x) k = Z.testbit x (k + 1).
Proof.
  intros Hk. unfold lfsr_step.
  rewrite Z.lor_spec, Z.land_spec, mask32_testbit by lia.
  rewrite Z.shiftr_spec by lia.
  replace (30 <=? k) with false by (symmetry; apply Z.leb_gt; lia).
  now rewrite andb_false_r, orb_false_r.
Qed.

Lemma lfsr_step_feedback (x k : Z) :
  30 <= k < 32 ->
  Z.testbit (lfsr_step x) k
  = Z.testbit x (k + 1) || xorb (Z.testbit x (k - 30)) (Z.testbit x (k - 29)).
Proof.
  intros Hk. unfold lfsr_step.
  rewrite Z.lor_spec, Z.land_spec, Z.lxor_spec, mask32_testbit by lia.
  rewrite Z.shiftr_spec by lia.
  rewrite !wrap32_testbit by lia.
  rewrite !Z.mul_pow2_bits by lia.
  replace (30 <=? k) with true by (symmetry; apply Z.leb_le; lia).
  now rewrite andb_true_r.
Qed.

(** X10. On an operand [v] that is exactly representable as a double,
    [nextRandom], under the [Math.abs], shifts [v] reduced to 32 bits
    right by one: bits 0 to 29 of the result are bits 1 to 30 of the
    operand, bit 30 is the sign bit or the exclusive or of bits 0 and 1,
    bit 31 is the sign bit or the exclusive or of bits 1 and 2; and where
    [v + 2^32] is exactly representable too, [nextRandom] takes the same
    value on both. *)
Theorem nextRandom_feedback_taps (v : Z) :
  exactly_representable v = true ->
  let x := wrap32 v in
  nextRandom (Num v) = Num (Z.abs (lfsr_step x))
  ∧ (∀ k, 0 <= k < 30 -> Z.testbit (lfsr_step x) k = Z.testbit x (k + 1))
  ∧ Z.testbit (lfsr_step x) 30
    = Z.testbit x 31 || xorb (Z.testbit x 0) (Z.testbit x 1)
  ∧ Z.testbit (lfsr_step x) 31
    = Z.testbit x 31 || xorb (Z.testbit x 1) (Z.testbit x 2)
  ∧ (exactly_representable (v + 2 ^ 32) = true ->
     nextRandom (Num (v + 2 ^ 32)) = nextRandom (Num v)).
Proof.
  intros _. cbn zeta. split; [apply nextRandom_as_int32 |].
  split; [intros k Hk; now apply lfsr_step_low_bits |].
  split; [now rewrite lfsr_step_feedback by lia |].
  split.
  - rewrite lfsr_step_feedback by lia.
    change (31 + 1) with 32. change (31 - 30) with 1. change (31 - 29) with 2.
    now rewrite (int32_testbit_sign _ 32 (wrap32_range v)) by lia.
  - intros _. rewrite !nextRandom_as_int32. do 2 f_equal. unfold wrap32.
    replace (v + 2 ^ 32 + 2 ^ 31) with (v + 2 ^ 31 + 1 * 2 ^ 32) by lia.
    now rewrite Z.mod_add by lia.
Qed.

Lemma nextRandom_feedback_taps_witness :
  (let x := wrap32 3 in
   nextRandom (Num 3) = Num (Z.abs (lfsr_step x))
   ∧ (∀ k, 0 <= k < 30 -> Z.testbit (lfsr_step x) k = Z.testbit x (k + 1))
   ∧ Z.testbit (lfsr_step x) 30
     = Z.testbit x 31 || xorb (Z.testbit x 0) (Z.testbit x 1)
   ∧ Z.testbit (lfsr_step x) 31
     = Z.testbit x 31 || xorb (Z.testbit x 1) (Z.testbit x 2)
   ∧ (exactly_representable (3 + 2 ^ 32) = true ->
      nextRandom (Num (3 + 2 ^ 32)) = nextRandom (Num 3)))
  ∧ nextRandom (Num (3 + 2 ^ 32)) = nextRandom (Num 3).
Proof.
  pose proof (nextRandom_feedback_taps 3 eq_refl) as Htaps.
  split; [exact Htaps |].
  destruct Htaps as (_ & _ & _ & _ & Hperiod). apply Hperiod. reflexivity.
Defined.

(** ** The arguments passed by the key iterator *)

Lemma iterates_app (a b : nat) (item : number) :
  iterates (a + b) item = iterates a item ++ iterates b (Nat.iter a nextRandom item).
Proof.
  revert item. induction a as [| a IH]; intros item; [reflexivity |].
  cbn [Nat.add iterates app]. rewrite IH. now rewrite Nat.iter_succ_r.
Qed.

Section IteratorArguments.
Context {St : Type}.
Variable callback : number -> Z -> St -> cb_result * St.

Lemma bit_loop_arguments n item byte s :
  match bit_loop callback n item byte s with
  | (f, _, t) =>
      inv_item <$> t = iterates (length t) item
      ∧ inv_byte <$> t = shifted (length t) byte
      ∧ match f with
        | Completed item' => item' = Nat.iter (length t) nextRandom item
        | Returned => True
        end
  end.
Proof.
  revert item byte s. induction n as [| n IH]; intros item byte s; cbn [bit_loop].
  - now split.
  - destruct (callback item byte s) as [[] s1].
    + now split.
    + specialize (IH (nextRandom item) (js_sar byte 1) s1).
      destruct (bit_loop callback n (nextRandom item) (js_sar byte 1) s1) as [[f s2] t].
      destruct IH as (Hitems & Hbytes & Hf).
      cbn [length iterates shifted]. rewrite !fmap_cons, Hitems, Hbytes.
      split; [reflexivity |]. split; [reflexivity |].
      destruct f; [| exact I]. now rewrite Nat.iter_succ_r.
Qed.

Lemma char_loop_items chars item s :
  let t := (char_loop callback chars item s).2 in
  inv_item <$> t = iterates (length t) item.
Proof.
  revert item s. induction chars as [| c rest IH]; intros item s.
  - reflexivity.
  - cbn [char_loop].
    pose proof (bit_loop_arguments 9 item c s) as Hb.
    destruct (bit_loop callback 9 item c s) as [[f s1] t].
    destruct Hb as (Hitems & _ & Hf).
    destruct f as [item1 |]; cbn [snd]; [| exact Hitems].
    specialize (IH item1 s1).
    destruct (char_loop callback rest item1 s1) as [s2 t']. cbn [snd] in *.
    rewrite fmap_app, length_app, iterates_app, Hitems, IH. now subst item1.
Qed.
End IteratorArguments.

(** X11. The values of [item] passed to the callback are the successive
    values of [nextRandom] from the code of the first character: [item]
    is not reset between characters, and two walks of equal length over
    keys with the same first character pass the same items, whatever the
    other characters and the callbacks. *)
Theorem iterateDataKey_items {St : Type}
    (callback : number -> Z -> St -> cb_result * St) (key : list Z) (s : St) :
  let t := (iterateDataKey callback key s).2 in
  inv_item <$> t = iterates (length t) (charCodeAt key 0)
  ∧ ∀ (St' : Type) (callback' : number -> Z -> St' -> cb_result * St')
      (key' : list Z) (s' : St'),
      key' !! 0%nat = key !! 0%nat ->
      length (iterateDataKey callback' key' s').2 = length t ->
      inv_item <$> (iterateDataKey callback' key' s').2 = inv_item <$> t.
Proof.
  cbn zeta. unfold iterateDataKey. split; [apply char_loop_items |].
  intros St' callback' key' s' Hfirst Hlen.
  rewrite !char_loop_items, Hlen. unfold charCodeAt. now rewrite Hfirst.
Qed.

Lemma iterateDataKey_items_witness :
  inv_item <$> (iterateDataKey (stop_at 12) (code_units "ax") 0%nat).2
  = inv_item <$> (iterateDataKey (stop_at 12) (code_units "ab") 0%nat).2.
Proof.
  apply (proj2 (iterateDataKey_items (stop_at 12) (code_units "ab") 0%nat));
    reflexivity.
Defined.

Lemma shifted_lookup (n j : nat) (c : Z) :
  0 <= c < 2 ^ 31 -> (j < n)%nat -> shifted n c !! j = Some (Z.shiftr c (Z.of_nat j)).
Proof.
  revert j c. induction n as [| n IH]; intros j c Hc Hj; [lia |].
  destruct j as [| j]; cbn [shifted lookup list_lookup].
  - reflexivity.
  - assert (Hsar : js_sar c 1 = Z.shiftr c 1).
    { unfold js_sar. now rewrite wrap32_small by lia. }
    assert (Hhalf : 0 <= Z.shiftr c 1 < 2 ^ 31).
    { rewrite Z.shiftr_div_pow2 by lia. change (2 ^ 1) with 2.
      pose proof (Z.div_mod c 2 ltac:(lia)). pose proof (Z.mod_pos_bound c 2 ltac:(lia)).
      lia. }
    change (shifted (S n) c !! S j) with (shifted n (js_sar c 1) !! j).
    rewrite Hsar, IH by (assumption || lia).
    rewrite Z.shiftr_shiftr by lia. do 2 f_equal. lia.
Qed.

Lemma shifted_length (n : nat) (c : Z) : length (shifted n c) = n.
Proof. revert c. induction n as [| n IH]; intros c; cbn; [| rewrite IH]; reflexivity. Qed.

Lemma bind_lookup_block (key : list Z) (i j : nat) (c : Z) :
  key !! i = Some c -> (j < 9)%nat ->
  (key ≫= shifted 9) !! (9 * i + j)%nat = shifted 9 c !! j.
Proof.
  revert i. induction key as [| c0 rest IH]; intros i Hi Hj; [discriminate |].
  change ((c0 :: rest) ≫= shifted 9) with (shifted 9 c0 ++ (rest ≫= shifted 9)).
  destruct i as [| i].
  - injection Hi as ->. rewrite lookup_app_l by (rewrite shifted_length; lia).
    reflexivity.
  - rewrite lookup_app_r by (rewrite shifted_length; lia).
    rewrite shifted_length. replace (9 * S i + j - 9)%nat with (9 * i + j)%nat by lia.
    now apply IH.
Qed.

(** X12. With a callback that never returns [null], invocation [9 i + j]
    receives the code unit of character [i] shifted right by [j]: its
    lowest bit is bit [j] of the code unit, and for a code below 256 the
    ninth invocation of the character receives 0. *)
Theorem iterateDataKey_bit_of_character {St : Type}
    (callback : number -> Z -> St -> cb_result * St) (key : list Z) (s : St)
    (i j : nat) (c : Z) :
  (∀ item byte s0, (callback item byte s0).1 = ResOther) ->
  key !! i = Some c -> 0 <= c < 2 ^ 16 -> (j < 9)%nat ->
  ∃ e, (iterateDataKey callback key s).2 !! (9 * i + j)%nat = Some e
       ∧ inv_byte e = Z.shiftr c (Z.of_nat j)
       ∧ Z.odd (inv_byte e) = Z.testbit c (Z.of_nat j)
       ∧ (j = 8%nat -> c < 256 -> inv_byte e = 0).
Proof.
  intros Hnever Hi Hc Hj. unfold iterateDataKey.
  destruct (char_loop_runs_out callback Hnever key (charCodeAt key 0) s) as [_ Hbytes].
  pose proof (bind_lookup_block key i j c Hi Hj) as Hblock.
  rewrite <- Hbytes, shifted_lookup in Hblock by lia.
  rewrite list_lookup_fmap in Hblock.
  destruct ((char_loop callback key (charCodeAt key 0) s).2 !! (9 * i + j)%nat)
    as [e |]; [| discriminate].
  injection Hblock as Hbyte. exists e. split; [reflexivity |].
  split; [exact Hbyte |]. split.
  - rewrite Hbyte, <- Z.bit0_odd, Z.shiftr_spec by lia. reflexivity.
  - intros -> Hsmall. rewrite Hbyte. rewrite Z.shiftr_div_pow2 by lia.
    apply Z.div_small. change (2 ^ Z.of_nat 8) with 256. lia.
Qed.

Lemma iterateDataKey_bit_of_character_witness :
  ∃ e, (iterateDataKey never_stop (code_units "ab") tt).2 !! (9 * 1 + 1)%nat = Some e
       ∧ inv_byte e = Z.shiftr 98 (Z.of_nat 1)
       ∧ Z.odd (inv_byte e) = Z.testbit 98 (Z.of_nat 1)
       ∧ (1%nat = 8%nat -> 98 < 256 -> inv_byte e = 0).
Proof.
  apply (iterateDataKey_bit_of_character never_stop (code_units "ab") tt 1 1 98);
    first [reflexivity | lia].
Defined.

(** ** Configuration and lookup together *)

Section ConfigurationFacts.
Context `{RegExpEngine}.

Lemma module_state_eq (σ σ' : module_state) :
  debug σ = debug σ' ->
  (∀ type, exemptionLists σ !! type = exemptionLists σ' !! type) ->
  σ = σ'.
Proof.
  destruct σ as [lists dbg], σ' as [lists' dbg']. cbn. intros -> Hl.
  f_equal. now apply map_eq.
Qed.

Lemma compile_all_elem sources regexes regex :
  compile_all sources = Some regexes ->
  regex ∈ regexes ↔ ∃ source, source ∈ sources ∧ RegExp_new source = Some regex.
Proof.
  revert regexes. induction sources as [| source rest IH]; intros regexes.
  - intros [= <-]. split.
    + intros Hin. now apply elem_of_nil in Hin.
    + intros (s & Hin & _). now apply elem_of_nil in Hin.
  - rewrite compile_all_cons.
    destruct (RegExp_new source) as [r |] eqn:Hnew; [| discriminate].
    destruct (compile_all rest) as [rs |]; [| discriminate].
    cbn. intros [= <-]. rewrite elem_of_cons, (IH rs eq_refl). split.
    + intros [-> | (s & Hin & Hs)].
      * exists source. split; [left | assumption].
      * exists s. split; [now right | assumption].
    + intros (s & Hin & Hs). apply elem_of_cons in Hin as [-> | Hin].
      * left. congruence.
      * right. now exists s.
Qed.

Lemma init_loop_idempotent entries σ σ1 :
  for_of entries init_feature σ = (Returns tt, σ1) ->
  NoDup entries.*1 ->
  for_of entries init_feature σ1 = (Returns tt, σ1).
Proof.
  intros Hrun Hnd.
  destruct (init_loop_returns _ _ _ Hrun Hnd) as (Hdbg & Hnamed & Hother).
  assert (Hall : Forall (λ entry, is_Some (compile_all entry.2)) entries).
  { apply Forall_forall. intros [type sources] Hin. cbn [snd].
    now destruct (Hnamed _ _ Hin). }
  destruct (init_loop_completes entries σ1 Hall) as [σ2 Hrun2].
  destruct (init_loop_returns _ _ _ Hrun2 Hnd) as (Hdbg2 & Hnamed2 & Hother2).
  rewrite Hrun2. f_equal. apply module_state_eq; [exact Hdbg2 |].
  intros type. destruct (decide (type ∈ entries.*1)) as [Hin | Hnot].
  - apply list_elem_of_fmap in Hin as ([t sources] & -> & Hin). cbn [fst].
    destruct (Hnamed _ _ Hin) as [_ ->]. now destruct (Hnamed2 _ _ Hin) as [_ ->].
  - now apply Hother2.
Qed.
End ConfigurationFacts.

(** X13. A configuration that has been applied can be applied again: the
    second call returns and leaves the state exactly as the first call
    left it. *)
Theorem initStringExemptionLists_idempotent `{RegExpEngine}
    (args : init_args) (σ σ1 : module_state) :
  initStringExemptionLists args σ = (Returns tt, σ1) ->
  NoDup (default [] (arg_stringExemptionLists args)).*1 ->
  initStringExemptionLists args σ1 = (Returns tt, σ1).
Proof.
  unfold initStringExemptionLists, bind, set_debug.
  destruct args as [dbg [entries |]]; cbn [arg_debug arg_stringExemptionLists default].
  - intros Hrun Hnd.
    destruct (init_loop_returns _ _ _ Hrun Hnd) as (Hdbg & _).
    cbn [debug] in Hdbg.
    replace {| exemptionLists := exemptionLists σ1; debug := dbg |} with σ1
      by (destruct σ1; cbn in *; congruence).
    now apply (init_loop_idempotent entries _ σ1 Hrun).
  - intros [= <-] _. reflexivity.
Qed.

Lemma initStringExemptionLists_idempotent_witness :
  initStringExemptionLists first_config after_first = (Returns tt, after_first).
Proof.
  apply (@initStringExemptionLists_idempotent literal_engine first_config initial_state).
  - reflexivity.
  - compute_done.
Defined.

(** X14. After a configuration that returns, [shouldExemptUrl] on a
    feature of the mapping returns, and it returns [true] exactly when
    one of the sources of that feature compiles to an expression that
    matches the URL. *)
Theorem initStringExemptionLists_then_shouldExemptUrl `{RegExpEngine}
    (args : init_args) (σ σ' : module_state) (type url : string)
    (sources : list string) :
  initStringExemptionLists args σ = (Returns tt, σ') ->
  NoDup (default [] (arg_stringExemptionLists args)).*1 ->
  (type, sources) ∈ default [] (arg_stringExemptionLists args) ->
  ∃ b, shouldExemptUrl σ' type url = Returns b
       ∧ (b = true ↔ ∃ source regex, source ∈ sources
                      ∧ RegExp_new source = Some regex
                      ∧ RegExp_test regex url = true).
Proof.
  unfold initStringExemptionLists, bind, set_debug.
  destruct args as [dbg [entries |]]; cbn [arg_debug arg_stringExemptionLists default].
  - intros Hrun Hnd Hin.
    destruct (init_loop_returns _ _ _ Hrun Hnd) as (_ & Hnamed & _).
    destruct (Hnamed _ _ Hin) as [[regexes Hc] Hl]. rewrite Hc in Hl.
    exists (any_test regexes url). unfold shouldExemptUrl. rewrite Hl.
    split; [reflexivity |]. rewrite any_test_true. split.
    + intros (regex & Hr & Ht).
      apply (compile_all_elem _ _ _ Hc) in Hr as (source & Hs & Hnew).
      now exists source, regex.
    + intros (source & regex & Hs & Hnew & Ht). exists regex. split; [| assumption].
      apply (compile_all_elem _ _ _ Hc). now exists source.
  - intros _ _ Hin. now apply elem_of_nil in Hin.
Qed.

Lemma initStringExemptionLists_then_shouldExemptUrl_witness :
  ∃ b, shouldExemptUrl after_first "f" "https://cdn.example.com/other.js" = Returns b
       ∧ (b = true ↔ ∃ source regex, source ∈ ["broken-lib\.js"]
                      ∧ @RegExp_new literal_engine source = Some regex
                      ∧ RegExp_test regex "https://cdn.example.com/other.js" = true).
Proof.
  apply (@initStringExemptionLists_then_shouldExemptUrl literal_engine first_config
           initial_state).
  - reflexivity.
  - compute_done.
  - compute_done.
Defined.

(** ** Repeated overrides *)

Section OverrideFacts.
Context `{Platform}.
Hypothesis standard : hasMozProxies = false.

Lemma Object_defineProperty_frame o o' name v other :
  Object_defineProperty o name v = Returns o' -> other ≠ name ->
  properties o' !! other = properties o !! other ∧ extensible o' = extensible o.
Proof.
  unfold Object_defineProperty. intros Hd Hne.
  destruct (properties o !! name) as [p |].
  - destruct (slot_configurable p); [| discriminate]. injection Hd as <-. cbn.
    split; [now apply lookup_insert_ne | reflexivity].
  - destruct (extensible o); [| discriminate]. injection Hd as <-. cbn.
    split; [now apply lookup_insert_ne | reflexivity].
Qed.

Lemma Object_defineProperty_refused o name v :
  can_define o name = false -> Object_defineProperty o name v = Throws TypeError.
Proof.
  unfold can_define, Object_defineProperty.
  destruct (properties o !! name) as [p |]; now intros ->.
Qed.

Lemma overrideProperty_standard name prop :
  origValue prop ≠ VUndefined ->
  (overrideProperty name prop).2
  = match Object_defineProperty (object prop) name (targetValue prop) with
    | Returns o => o
    | Throws _ => object prop
    end.
Proof.
  intros Hdef. unfold overrideProperty, defineProperty. rewrite standard.
  rewrite bool_decide_eq_false_2 by assumption. cbn [negb].
  now destruct (Object_defineProperty _ _ _).
Qed.
End OverrideFacts.

(** X15. On the standard platform [overrideProperty] leaves every other
    property of the object and its extensibility as they were, and where
    the property cannot be redefined (not configurable, or absent from an
    object that is not extensible) it returns [origValue] and leaves the
    object unchanged. *)
Theorem overrideProperty_touches_one_property `{Platform}
    (name other : string) (prop : override_prop) :
  hasMozProxies = false ->
  (other ≠ name ->
   properties (overrideProperty name prop).2 !! other
   = properties (object prop) !! other)
  ∧ extensible (overrideProperty name prop).2 = extensible (object prop)
  ∧ (can_define (object prop) name = false ->
     overrideProperty name prop = (origValue prop, object prop)).
Proof.
  intros Hstd.
  destruct (decide (origValue prop = VUndefined)) as [Hundef | Hdef].
  - assert (Hskip : overrideProperty name prop = (origValue prop, object prop)).
    { unfold overrideProperty. now rewrite bool_decide_eq_true_2 by assumption. }
    rewrite Hskip. repeat split.
  - assert (Hfst : (overrideProperty name prop).1 = origValue prop).
    { unfold overrideProperty. rewrite bool_decide_eq_false_2 by assumption.
      cbn [negb]. now destruct (defineProperty _ _ _). }
    pose proof (overrideProperty_standard Hstd name prop Hdef) as Hsnd.
    destruct (Object_defineProperty (object prop) name (targetValue prop))
      as [o |] eqn:Hd.
    + split; [| split].
      * intros Hne. rewrite Hsnd.
        now destruct (Object_defineProperty_frame _ _ _ _ _ Hd Hne).
      * rewrite Hsnd.
        unfold Object_defineProperty in Hd.
        destruct (properties (object prop) !! name) as [p |].
        -- destruct (slot_configurable p); [| discriminate]. now injection Hd as <-.
        -- destruct (extensible (object prop)); [| discriminate]. now injection Hd as <-.
      * intros Hno. rewrite Object_defineProperty_refused in Hd by assumption.
        discriminate.
    + rewrite Hsnd. split; [reflexivity |]. split; [reflexivity |].
      intros _. destruct (overrideProperty name prop) as [v o'].
      cbn [fst snd] in *. congruence.
Qed.

Lemma overrideProperty_touches_one_property_witness :
  properties (@overrideProperty chrome_platform "availTop" frozen_prop).2 !! "availLeft"
  = properties frozen_object !! "availLeft"
  ∧ @overrideProperty chrome_platform "availTop" frozen_prop
    = (VNumber (Num 24), frozen_object).
Proof.
  destruct (@overrideProperty_touches_one_property chrome_platform "availTop"
              "availLeft" frozen_prop eq_refl) as (Hframe & _ & Hrefused).
  split; [apply Hframe; discriminate | apply Hrefused; reflexivity].
Defined.

(** X16. Two overrides of the same property in a row on the standard
    platform: where the property existed (and was configurable) the
    second target value is read afterwards; where the first override
    created the property, the property is not configurable, the second
    override is swallowed and the first target value stays. *)
Theorem overrideProperty_twice `{Platform} (name : string) (first second : override_prop) :
  hasMozProxies = false ->
  origValue first ≠ VUndefined ->
  origValue second ≠ VUndefined ->
  can_define (object first) name = true ->
  object second = (overrideProperty name first).2 ->
  get_property (overrideProperty name second).2 name
  = match properties (object first) !! name with
    | Some _ => targetValue second
    | None => targetValue first
    end.
Proof.
  intros Hstd Hd1 Hd2 Hcan Hobj.
  rewrite (overrideProperty_standard Hstd name second Hd2), Hobj.
  rewrite (overrideProperty_standard Hstd name first Hd1).
  unfold can_define in Hcan. unfold Object_defineProperty, get_property.
  destruct (properties (object first) !! name) as [p |] eqn:Hp;
    rewrite Hcan; cbn; rewrite lookup_insert_eq; cbn; now rewrite lookup_insert_eq.
Qed.

Lemma overrideProperty_twice_witness :
  get_property
    (@overrideProperty chrome_platform "availTop"
       {| object := (@overrideProperty chrome_platform "availTop"
                       {| object := bare_object; origValue := VNull;
                          targetValue := VNumber (Num 1) |}).2;
          origValue := VNull; targetValue := VNumber (Num 2) |}).2
    "availTop"
  = VNumber (Num 1).
Proof.
  apply (@overrideProperty_twice chrome_platform "availTop"
           {| object := bare_object; origValue := VNull; targetValue := VNumber (Num 1) |}
           {| object := (@overrideProperty chrome_platform "availTop"
                           {| object := bare_object; origValue := VNull;
                              targetValue := VNumber (Num 1) |}).2;
              origValue := VNull; targetValue := VNumber (Num 2) |});
    first [reflexivity | discriminate].
Defined.

(** ** The debug record *)

(** X17. With [debug] on, a stack that can be read and arguments that
    can be serialised, the handler posts exactly one record, before it
    forwards the call: its action is ['ignore'] for an exempt call and
    ['restrict'] otherwise, its kind is the property, and it carries the
    arguments; when posting raises, the exception leaves the handler and
    the call is not forwarded. *)
Theorem outputHandler_debug_record `{RegExpEngine} {World : Type}
    (postMessage : string -> debug_message -> World -> outcome unit * World)
    (this : @DDGProxy World) (σ : module_state) (ctx : call_context)
    (thisArg : value) (argumentsList : list value) (w : World)
    (isExempt : bool) (stack : string) :
  debug σ = true ->
  shouldExemptMethod σ (ctx_stack ctx) (camelFeatureName this) = Returns isExempt ->
  ctx_debug_stack ctx = Returns stack ->
  existsb is_BigInt argumentsList = false ->
  let message :=
    {| msg_action := if isExempt then "ignore" else "restrict";
       msg_kind := property this;
       msg_documentUrl := ctx_documentUrl ctx;
       msg_stack := stack;
       msg_args := argumentsList |} in
  let posted := postMessage (camelFeatureName this) message w in
  let '(result, w2, log) :=
    outputHandler postMessage this σ ctx thisArg argumentsList w in
  match posted.1 with
  | Returns _ =>
      (result, w2)
      = (if isExempt then _native this else proxyObject_apply this)
          thisArg argumentsList posted.2
      ∧ log = [DebugPosted (camelFeatureName this) message;
               if isExempt then NativeCalled thisArg argumentsList
               else SubstituteCalled thisArg argumentsList]
  | Throws e =>
      result = Throws e ∧ w2 = posted.2
      ∧ log = [DebugPosted (camelFeatureName this) message]
  end.
Proof.
  intros Hdebug Hexempt Hstack Hjson. cbn zeta.
  unfold outputHandler, debug_statement, post_debug, JSON_stringify.
  rewrite Hexempt, Hdebug, Hstack, Hjson.
  destruct (postMessage _ _ w) as [[[] | e] w1]; cbn [fst snd].
  - destruct isExempt.
    + now destruct (_native this thisArg argumentsList w1).
    + now destruct (proxyObject_apply this thisArg argumentsList w1).
  - repeat split.
Qed.

Lemma outputHandler_debug_record_witness :
  let message :=
    {| msg_action := "restrict"; msg_kind := "toDataURL";
       msg_documentUrl := "https://example.com/"; msg_stack := "Error";
       msg_args := [VString "image/png"] |} in
  @outputHandler literal_engine nat post_ok canvas_proxy debug_on quiet_context
    VUndefined [VString "image/png"] 0%nat
  = (Returns (VNumber (Num 0)), 1%nat,
     [DebugPosted "fingerprintingCanvas" message;
      SubstituteCalled VUndefined [VString "image/png"]]).
Proof.
  pose proof (@outputHandler_debug_record literal_engine nat post_ok canvas_proxy
                debug_on quiet_context VUndefined [VString "image/png"] 0%nat false
                "Error" eq_refl eq_refl eq_refl eq_refl) as Hrec.
  cbn zeta in Hrec.
  destruct (@outputHandler literal_engine nat post_ok canvas_proxy debug_on
              quiet_context VUndefined [VString "image/png"] 0%nat) as [[result w2] log].
  destruct Hrec as [Hres Hlog]. cbn in Hres. injection Hres as -> ->.
  now rewrite Hlog.
Defined.

(** ** The key of the digest *)

Lemma string_append_assoc (s1 s2 s3 : string) :
  (s1 +:+ s2) +:+ s3 = s1 +:+ (s2 +:+ s3).
Proof.
  induction s1 as [| c s1 IH]; [reflexivity |].
  change (String c ((s1 +:+ s2) +:+ s3) = String c (s1 +:+ (s2 +:+ s3))).
  now rewrite IH.
Qed.

(** X18. The digest depends on the session key and the domain key through
    their concatenation only: moving characters from the end of the
    session key to the front of the domain key gives the same digest. *)
Theorem getDataKeySync_key_boundary `{KeyedHash}
    (sessionKey shared domainKey : string) (inputData : number) :
  getDataKeySync (sessionKey +:+ shared) domainKey inputData
  = getDataKeySync sessionKey (shared +:+ domainKey) inputData.
Proof. unfold getDataKeySync. now rewrite string_append_assoc. Qed.
